(** * A shallow embedding of [order_book.py] (OrderBookSimulation)

    The engine [OrderBook] keeps two [heapq] priority queues [bids] and
    [asks] whose entries are tuples [(key, timestamp, order)], an index
    [order_map] from order id to order object, an append-only list of
    [Trade]s, the id counter and the last trade price.

    Modelling choices, each following the Python code:
    - prices are Python floats; they are modelled as exact rationals [Q]
      (finite values, as the spec requires of limit prices), compared with
      [Qle_bool] / [Qlt];
    - [time.time()] is modelled by a clock reading [now : Z] given to each
      operation;
    - [Order] objects are mutable and shared between the queues, the index
      and the local variables of the matching loops.  They live in an
      explicit object store [Heap] (a [gmap] from reference to [Order]);
      queue entries and the index hold references.  The object created by
      [add_order_api] for id [n] is stored at reference [n];
    - a [heapq] heap is modelled as a priority queue: a list kept ordered by
      the tuple ordering of [(key, timestamp)], so that [h[0]] is a least
      entry, [heappush] inserts after the entries that are not greater and
      [heappop] removes [h[0]];  [heapify] rebuilds the queue by pushing the
      entries one by one. *)

From Stdlib Require Import ZArith QArith Qround Lqa List Lia Permutation Sorting.
From stdpp Require Import gmap strings list.
Import ListNotations.

Inductive Side := BUY | SELL.
Inductive OrderType := MARKET | LIMIT.

Definition side_eqb (a b : Side) : bool :=
  match a, b with BUY, BUY | SELL, SELL => true | _, _ => false end.

(** [@dataclass class Order] *)
Record Order := mkOrder {
  order_id : nat;
  side : Side;
  price : Q;
  quantity : Z;
  order_type : OrderType;
  timestamp : Z;
  participant_name : string
}.

(** [order.quantity = q] *)
Definition set_quantity (o : Order) (q : Z) : Order :=
  mkOrder (order_id o) (side o) (price o) q (order_type o) (timestamp o)
    (participant_name o).

(** [class Trade(NamedTuple)] *)
Record Trade := mkTrade {
  trade_timestamp : Z;
  trade_price : Q;
  trade_quantity : Z;
  trade_side : Side
}.

(** A reference to an [Order] object. *)
Abbreviation Ref := nat.

(** The Python object store holding the [Order] objects. *)
Abbreviation Heap := (gmap nat Order).

(** A queue entry [(key, timestamp, order)]: the key is [-price] for bids
    and [price] for asks. *)
Definition Entry := (Q * Z * Ref)%type.

Definition ekey (e : Entry) : Q := fst (fst e).
Definition ets (e : Entry) : Z := snd (fst e).
Definition eref (e : Entry) : Ref := snd e.

(** [OrderBook.__init__] fields. *)
Record OrderBook := mkBook {
  bids : list Entry;
  asks : list Entry;
  order_map : gmap nat Ref;
  trades : list Trade;
  next_order_id : nat;
  last_trade_price : Q
}.

(** The engine together with the objects it references. *)
Definition World := (OrderBook * Heap)%type.

Definition set_bids (b : OrderBook) (l : list Entry) : OrderBook :=
  mkBook l (asks b) (order_map b) (trades b) (next_order_id b) (last_trade_price b).
Definition set_asks (b : OrderBook) (l : list Entry) : OrderBook :=
  mkBook (bids b) l (order_map b) (trades b) (next_order_id b) (last_trade_price b).
Definition set_order_map (b : OrderBook) (m : gmap nat Ref) : OrderBook :=
  mkBook (bids b) (asks b) m (trades b) (next_order_id b) (last_trade_price b).
Definition set_next_order_id (b : OrderBook) (n : nat) : OrderBook :=
  mkBook (bids b) (asks b) (order_map b) (trades b) n (last_trade_price b).

(** [self.trades.append(t); self.last_trade_price = t.price] *)
Definition record_trade (b : OrderBook) (t : Trade) : OrderBook :=
  mkBook (bids b) (asks b) (order_map b) (trades b ++ [t]) (next_order_id b)
    (trade_price t).

(** [def __init__(self)] *)
Definition init_book : OrderBook := mkBook [] [] ∅ [] 1 100%Q.
Definition init_world : World := (init_book, ∅).

(** ** [heapq] as a priority queue *)

(** [x < y] on floats. *)
Definition Qltb (x y : Q) : bool := negb (Qle_bool y x).

(** Tuple comparison [(k1, t1, _) < (k2, t2, _)] on the key and timestamp
    (on equal keys and timestamps [Order.__lt__] compares timestamps again,
    so neither entry is smaller). *)
Definition entry_lt (x y : Entry) : bool :=
  Qltb (ekey x) (ekey y) || (Qeq_bool (ekey x) (ekey y) && Z.ltb (ets x) (ets y)).

(** [heapq.heappush(h, e)] *)
Fixpoint heappush (h : list Entry) (e : Entry) : list Entry :=
  match h with
  | [] => [e]
  | x :: r => if entry_lt e x then e :: x :: r else x :: heappush r e
  end.

(** [heapq.heappop(h)] *)
Definition heappop (h : list Entry) : list Entry := tl h.

(** [heapq.heapify(h)] *)
Definition heapify (h : list Entry) : list Entry := fold_left heappush h [].

(** ** Mutating order objects *)

(** [o.quantity -= d] on the object at reference [r]. *)
Definition dec_quantity (r : Ref) (d : Z) (objs : Heap) : Heap :=
  alter (fun o => set_quantity o (quantity o - d)) r objs.

Definition qty_of (objs : Heap) (r : Ref) : Z :=
  match objs !! r with Some o => quantity o | None => 0 end.

(** ** [OrderBook.match_orders] *)

(** One iteration of [while self.bids and self.asks:]; [None] when the loop
    exits (a side is empty or [best_bid.price < best_ask.price]). *)
Definition match_step (now : Z) (w : World) : option World :=
  let '(b, objs) := w in
  match bids b, asks b with
  | eb :: _, ea :: _ =>
    match objs !! eref eb, objs !! eref ea with
    | Some best_bid, Some best_ask =>
      if Qle_bool (price best_ask) (price best_bid) then
        let trade_quantity := Z.min (quantity best_bid) (quantity best_ask) in
        let trade_price := price best_ask in
        let trade_side :=
          if Z.ltb (timestamp best_ask) (timestamp best_bid) then BUY else SELL in
        let b1 := record_trade b (mkTrade now trade_price trade_quantity trade_side) in
        let objs1 := dec_quantity (eref eb) trade_quantity objs in
        let objs2 := dec_quantity (eref ea) trade_quantity objs1 in
        let b2 := if Z.eqb (qty_of objs2 (eref eb)) 0
                  then set_bids b1 (heappop (bids b1)) else b1 in
        let b3 := if Z.eqb (qty_of objs2 (eref ea)) 0
                  then set_asks b2 (heappop (asks b2)) else b2 in
        Some (b3, objs2)
      else None
    | _, _ => None
    end
  | _, _ => None
  end.

Fixpoint match_loop (fuel : nat) (now : Z) (w : World) : World :=
  match fuel with
  | O => w
  | S f => match match_step now w with
           | Some w' => match_loop f now w'
           | None => w
           end
  end.

(** Every iteration pops at least one entry, so [1 + len(bids) + len(asks)]
    iterations are enough (see [match_orders_exits] below). *)
Definition match_orders (now : Z) (w : World) : World :=
  match_loop (S (length (bids w.1) + length (asks w.1))) now w.

(** ** [OrderBook._handle_market_order] *)

(** The queue a market order on side [sd] executes against: [self.asks] for
    a BUY, [self.bids] for a SELL.  The two branches of
    [_handle_market_order] are the same loop with the queues swapped and the
    trade tagged ["BUY"] resp. ["SELL"]. *)
Definition opp_queue (sd : Side) (b : OrderBook) : list Entry :=
  match sd with BUY => asks b | SELL => bids b end.
Definition set_opp_queue (sd : Side) (b : OrderBook) (l : list Entry) : OrderBook :=
  match sd with BUY => set_asks b l | SELL => set_bids b l end.

(** One iteration of [while market_order.quantity > 0 and self.asks:]. *)
Definition market_step (now : Z) (sd : Side) (r : Ref) (w : World) : option World :=
  let '(b, objs) := w in
  match objs !! r, opp_queue sd b with
  | Some market_order, e :: _ =>
    if Z.ltb 0 (quantity market_order) then
      match objs !! eref e with
      | Some best =>
        let trade_quantity := Z.min (quantity market_order) (quantity best) in
        let trade_price := price best in
        let b1 := record_trade b (mkTrade now trade_price trade_quantity sd) in
        let objs1 := dec_quantity (eref e) trade_quantity objs in
        let objs2 := dec_quantity r trade_quantity objs1 in
        let b2 := if Z.eqb (qty_of objs2 (eref e)) 0
                  then set_opp_queue sd b1 (heappop (opp_queue sd b1)) else b1 in
        Some (b2, objs2)
      | None => None
      end
    else None
  | _, _ => None
  end.

Fixpoint market_loop (fuel : nat) (now : Z) (sd : Side) (r : Ref) (w : World) : World :=
  match fuel with
  | O => w
  | S f => match market_step now sd r w with
           | Some w' => market_loop f now sd r w'
           | None => w
           end
  end.

(** Each iteration either pops the best resting order or fills the market
    order, so [2 + len(queue)] iterations are enough. *)
Definition handle_market_order (now : Z) (r : Ref) (w : World) : bool * World :=
  match w.2 !! r with
  | None => (false, w)
  | Some market_order =>
    let sd := side market_order in
    match opp_queue sd w.1 with
    | [] => (false, w)
    | _ :: _ => (true, market_loop (S (S (length (opp_queue sd w.1)))) now sd r w)
    end
  end.

(** ** [OrderBook.add_order] and [OrderBook.add_order_api] *)

Definition add_order (now : Z) (r : Ref) (w : World) : bool * World :=
  match w.2 !! r with
  | None => (false, w)
  | Some order =>
    match order_type order with
    | MARKET => handle_market_order now r w
    | LIMIT =>
      let b := w.1 in
      let b1 := match side order with
                | BUY => set_bids b (heappush (bids b) ((- price order)%Q, timestamp order, r))
                | SELL => set_asks b (heappush (asks b) (price order, timestamp order, r))
                end in
      let b2 := set_order_map b1 (<[order_id order := r]> (order_map b1)) in
      (true, match_orders now (b2, w.2))
    end
  end.

Definition add_order_api (now : Z) (sd : Side) (pr : Q) (q : Z) (ot : OrderType)
    (participant : string) (w : World) : bool * option nat * World :=
  let '(b, objs) := w in
  let oid := next_order_id b in
  let b1 := set_next_order_id b (S oid) in
  let order := mkOrder oid sd pr q ot now participant in
  let '(success, w') := add_order now oid (b1, <[oid := order]> objs) in
  (success, if success then Some oid else None, w').

(** ** [OrderBook.cancel_order] *)

(** [o.order_id != order_id] for the entry [(p, t, o)]. *)
Definition keep_entry (objs : Heap) (oid : nat) (e : Entry) : bool :=
  match objs !! eref e with
  | Some o => negb (Nat.eqb (order_id o) oid)
  | None => true
  end.

Definition cancel_order (oid : nat) (w : World) : bool * World :=
  let '(b, objs) := w in
  match order_map b !! oid with
  | None => (false, w)
  | Some r =>
    let b1 := set_order_map b (delete oid (order_map b)) in
    match objs !! r with
    | Some order =>
      match side order with
      | BUY => (true, (set_bids b1 (heapify (List.filter (keep_entry objs oid) (bids b1))), objs))
      | SELL => (true, (set_asks b1 (heapify (List.filter (keep_entry objs oid) (asks b1))), objs))
      end
    | None => (true, (b1, objs))
    end
  end.

(** ** [OrderBook.get_order_book] and [OrderBook.get_mid_price] *)

(** Tuple comparison on [(price, quantity)] rows. *)
Definition row_lt (x y : Q * Z) : bool :=
  Qltb (fst x) (fst y) || (Qeq_bool (fst x) (fst y) && Z.ltb (snd x) (snd y)).

(** Stable insertion for [sorted(...)] and [sorted(..., reverse=True)]. *)
Fixpoint insert_asc (x : Q * Z) (l : list (Q * Z)) : list (Q * Z) :=
  match l with
  | [] => [x]
  | y :: r => if row_lt x y then x :: y :: r else y :: insert_asc x r
  end.
Fixpoint insert_desc (x : Q * Z) (l : list (Q * Z)) : list (Q * Z) :=
  match l with
  | [] => [x]
  | y :: r => if row_lt y x then x :: y :: r else y :: insert_desc x r
  end.
Definition sorted_asc (l : list (Q * Z)) : list (Q * Z) :=
  fold_left (fun acc x => insert_asc x acc) l [].
Definition sorted_desc (l : list (Q * Z)) : list (Q * Z) :=
  fold_left (fun acc x => insert_desc x acc) l [].

Definition get_order_book (w : World) : list (Q * Z) * list (Q * Z) :=
  let '(b, objs) := w in
  (sorted_desc (map (fun e => ((- ekey e)%Q, qty_of objs (eref e))) (bids b)),
   sorted_asc (map (fun e => (ekey e, qty_of objs (eref e))) (asks b))).

Definition get_mid_price (w : World) : Q :=
  match get_order_book w with
  | ((pb, _) :: _, (pa, _) :: _) => ((pb + pa) / 2)%Q
  | _ => last_trade_price w.1
  end.

(** ** Sequences of operations *)

Inductive Op :=
| Submit (now : Z) (sd : Side) (pr : Q) (q : Z) (ot : OrderType) (participant : string)
| Cancel (oid : nat).

Definition step (w : World) (op : Op) : World :=
  match op with
  | Submit now sd pr q ot p => (add_order_api now sd pr q ot p w).2
  | Cancel oid => (cancel_order oid w).2
  end.

Definition run (w : World) (ops : list Op) : World := fold_left step ops w.

Definition reachable (w : World) : Prop := exists ops, w = run init_world ops.

Fixpoint n_submits (ops : list Op) : nat :=
  match ops with
  | [] => O
  | Submit _ _ _ _ _ _ :: r => S (n_submits r)
  | Cancel _ :: r => n_submits r
  end.

(** * [market_maker.py], [random_trader.py] and [app.py] *)

(** ** [MarketMaker.cancel_all_orders]: [order_book.cancel_order(order_id)] for
    every key of [active_orders], in order ([active_orders] is then empty). *)
Definition cancel_all_orders (active_order_ids : list nat) (w : World) : World :=
  fold_left (fun w oid => (cancel_order oid w).2) active_order_ids w.

(** The [MarketMaker] fields read or written by [update_price_history] and
    [calculate_spread] (floats as [Q], ints as [Z]). *)
Record MarketMaker := mkMarketMaker {
  base_spread : Q;
  inventory_limit : Z;
  volatility_window : Z;
  inventory_risk_factor : Q;
  volatility_sensitivity : Q;
  inventory : Z;
  price_history : list Q
}.

Definition set_price_history (mm : MarketMaker) (h : list Q) : MarketMaker :=
  mkMarketMaker (base_spread mm) (inventory_limit mm) (volatility_window mm)
    (inventory_risk_factor mm) (volatility_sensitivity mm) (inventory mm) h.

(** ** [MarketMaker.update_price_history]: append, then [pop(0)] once if the
    history is longer than [volatility_window]. *)
Definition update_price_history (mm : MarketMaker) (mid_price : Q) : MarketMaker :=
  let h := price_history mm ++ [mid_price] in
  if Z.ltb (volatility_window mm) (Z.of_nat (length h))
  then set_price_history mm (tl h)
  else set_price_history mm h.

(** ** [MarketMaker.calculate_spread]: [None] is the [ZeroDivisionError] of
    [abs(self.inventory) / self.inventory_limit] when the limit is [0]. *)
Definition calculate_spread (mm : MarketMaker) (current_vol : Q) : option Q :=
  let vol_component := (volatility_sensitivity mm * current_vol)%Q in
  if Z.eqb (inventory_limit mm) 0 then None else
  let inv_factor := (inject_Z (Z.abs (inventory mm)) / inject_Z (inventory_limit mm))%Q in
  let inv_component := (inv_factor * inventory_risk_factor mm * base_spread mm)%Q in
  Some (base_spread mm + vol_component + inv_component)%Q.

(** ** [RandomTrader.generate_order_size] *)



(** ** [app.py]: [recent_trades = order_book.trades[-10:][::-1]] *)
Definition recent_trades (trades : list Trade) : list Trade :=
  rev (skipn (length trades - 10) trades).

Definition scen_c2 : World :=
  run init_world [Submit 1 BUY 100 10 LIMIT "a"; Submit 2 SELL 99 5 LIMIT "b"].
Example scen_c2_ok : get_order_book scen_c2 = ([(100%Q, 5%Z)], []) /\
  map (fun t => (trade_price t, trade_quantity t)) (trades scen_c2.1) = [(99%Q, 5%Z)].
Proof. vm_compute. split; reflexivity. Qed.

(** * Properties of the queues *)

Definition entry_le (x y : Entry) : Prop := (ekey x <= ekey y)%Q.

Lemma entry_lt_true_le (x y : Entry) : entry_lt x y = true -> entry_le x y.
Proof.
  unfold entry_lt, Qltb, entry_le. intros H.
  apply orb_true_iff in H as [H | H].
  - apply negb_true_iff in H. apply Qlt_le_weak, Qnot_le_lt.
    intros Hle. apply Qle_bool_iff in Hle. congruence.
  - apply andb_true_iff in H as [H _]. apply Qeq_bool_iff in H.
    rewrite H. apply Qle_refl.
Qed.

Lemma entry_lt_false_le (x y : Entry) : entry_lt x y = false -> entry_le y x.
Proof.
  unfold entry_lt, Qltb, entry_le. intros H.
  apply orb_false_iff in H as [H _]. apply negb_false_iff in H.
  now apply Qle_bool_iff.
Qed.

Lemma heappush_perm (h : list Entry) (e : Entry) : Permutation (heappush h e) (e :: h).
Proof.
  induction h as [|x r IH]; simpl; [reflexivity|].
  destruct (entry_lt e x); [reflexivity|].
  rewrite IH. apply perm_swap.
Qed.

Lemma heappush_sorted (h : list Entry) (e : Entry) :
  StronglySorted entry_le h -> StronglySorted entry_le (heappush h e).
Proof.
  induction h as [|x r IH]; simpl; intros Hs.
  - repeat constructor.
  - apply StronglySorted_inv in Hs as [Hr Hx].
    destruct (entry_lt e x) eqn:E.
    + apply entry_lt_true_le in E. constructor; [constructor; auto|].
      constructor; [exact E|]. rewrite List.Forall_forall in Hx |- *.
      intros y Hy. unfold entry_le in *. eapply Qle_trans; [exact E|]. now apply Hx.
    + apply entry_lt_false_le in E. constructor; [now apply IH|].
      apply (Permutation_Forall (Permutation_sym (heappush_perm r e))).
      constructor; assumption.
Qed.

Lemma heapify_perm (h : list Entry) : Permutation (heapify h) h.
Proof.
  unfold heapify. enough (forall acc, Permutation (fold_left heappush h acc) (h ++ acc)) as G.
  { rewrite G. now rewrite app_nil_r. }
  induction h as [|x r IH]; intros acc; simpl; [reflexivity|].
  rewrite IH, heappush_perm. symmetry. apply Permutation_middle.
Qed.

Lemma heapify_sorted (h : list Entry) : StronglySorted entry_le (heapify h).
Proof.
  unfold heapify. enough (forall acc, StronglySorted entry_le acc ->
    StronglySorted entry_le (fold_left heappush h acc)) as G by (apply G; constructor).
  induction h as [|x r IH]; intros acc Hacc; simpl; [exact Hacc|].
  apply IH, heappush_sorted, Hacc.
Qed.

Lemma heappop_sorted (h : list Entry) :
  StronglySorted entry_le h -> StronglySorted entry_le (heappop h).
Proof. destruct h; simpl; [auto|]. intros H. now apply StronglySorted_inv in H as [H _]. Qed.

Lemma heappop_incl (h : list Entry) (e : Entry) : In e (heappop h) -> In e h.
Proof. destruct h; simpl; auto. Qed.

(** The head of a sorted queue has the least key. *)
Lemma sorted_head_least (e : Entry) (r : list Entry) (x : Entry) :
  StronglySorted entry_le (e :: r) -> In x (e :: r) -> entry_le e x.
Proof.
  intros [_ H]%StronglySorted_inv [<- | Hx].
  - unfold entry_le. apply Qle_refl.
  - rewrite List.Forall_forall in H. now apply H.
Qed.

(** * Well-formed states *)

(** The heap key of an order of side [sd] and price [p]. *)
Definition side_key (sd : Side) (p : Q) : Q :=
  match sd with BUY => (- p)%Q | SELL => p end.

(** An entry of the [sd] queue points to a live limit order of that side,
    and its key and timestamp are the order's. *)
Definition entry_ok (sd : Side) (objs : Heap) (e : Entry) : Prop :=
  exists o, objs !! eref e = Some o /\ side o = sd /\ order_type o = LIMIT /\
    order_id o = eref e /\ ekey e = side_key sd (price o) /\ ets e = timestamp o.

Record wf (w : World) : Prop := {
  wf_bids : Forall (entry_ok BUY w.2) (bids w.1);
  wf_asks : Forall (entry_ok SELL w.2) (asks w.1);
  wf_bids_sorted : StronglySorted entry_le (bids w.1);
  wf_asks_sorted : StronglySorted entry_le (asks w.1);
  wf_fresh : forall r o, w.2 !! r = Some o -> (r < next_order_id w.1)%nat
}.

(** The fields of an order that never change after creation. *)
Definition order_static (o : Order) : nat * Side * Q * OrderType * Z * string :=
  (order_id o, side o, price o, order_type o, timestamp o, participant_name o).

Definition same_static (objs objs' : Heap) : Prop :=
  forall j, order_static <$> objs !! j = order_static <$> objs' !! j.

Lemma dec_quantity_static (r : Ref) (d : Z) (objs : Heap) :
  same_static objs (dec_quantity r d objs).
Proof.
  intros j. unfold dec_quantity. rewrite lookup_alter.
  case_decide; [subst|reflexivity].
  destruct (objs !! j); reflexivity.
Qed.

Lemma same_static_trans (a b c : Heap) :
  same_static a b -> same_static b c -> same_static a c.
Proof. intros H1 H2 j. now rewrite H1, H2. Qed.

Lemma entry_ok_static (sd : Side) (objs objs' : Heap) (e : Entry) :
  same_static objs objs' -> entry_ok sd objs e -> entry_ok sd objs' e.
Proof.
  intros Hs (o & Ho & H1 & H2 & H3 & H4 & H5).
  specialize (Hs (eref e)). rewrite Ho in Hs.
  destruct (objs' !! eref e) as [o'|] eqn:Ho'; [|discriminate].
  simpl in Hs. injection Hs. unfold order_static.
  intros _ ? ? ? ? ?. exists o'. repeat split; congruence.
Qed.

Lemma fresh_static (objs objs' : Heap) (n : nat) :
  same_static objs objs' ->
  (forall r o, objs !! r = Some o -> (r < n)%nat) ->
  (forall r o, objs' !! r = Some o -> (r < n)%nat).
Proof.
  intros Hs Hf r o Ho. specialize (Hs r). rewrite Ho in Hs.
  destruct (objs !! r) eqn:E; [now apply (Hf r o0)|discriminate].
Qed.

Lemma Forall_heappop {A} (P : A -> Prop) (h : list A) : Forall P h -> Forall P (tl h).
Proof. destruct h; simpl; [auto|]. now inversion 1. Qed.

(** The shape of one iteration of [match_orders]. *)
Lemma match_step_shape (now : Z) (w w' : World) :
  match_step now w = Some w' ->
  (bids w'.1 = bids w.1 \/ bids w'.1 = heappop (bids w.1)) /\
  (asks w'.1 = asks w.1 \/ asks w'.1 = heappop (asks w.1)) /\
  next_order_id w'.1 = next_order_id w.1 /\ order_map w'.1 = order_map w.1 /\
  same_static w.2 w'.2.
Proof.
  destruct w as [b objs]. unfold match_step.
  destruct (bids b) as [|eb rb] eqn:Eb; [discriminate|].
  destruct (asks b) as [|ea ra] eqn:Ea; [discriminate|].
  destruct (objs !! eref eb) as [ob|]; [|discriminate].
  destruct (objs !! eref ea) as [oa|]; [|discriminate].
  destruct (Qle_bool (price oa) (price ob)); [|discriminate].
  intros H. injection H as <-. simpl.
  split; [|split; [|split; [|split]]].
  - destruct (Z.eqb _ 0); destruct (Z.eqb _ 0); simpl; rewrite ?Eb; auto.
  - destruct (Z.eqb _ 0); destruct (Z.eqb _ 0); simpl; rewrite ?Ea; auto.
  - destruct (Z.eqb _ 0); destruct (Z.eqb _ 0); reflexivity.
  - destruct (Z.eqb _ 0); destruct (Z.eqb _ 0); reflexivity.
  - eapply same_static_trans; apply dec_quantity_static.
Qed.

(** The shape of one iteration of the market-order loop. *)
Lemma market_step_shape (now : Z) (sd : Side) (r : Ref) (w w' : World) :
  market_step now sd r w = Some w' ->
  (opp_queue sd w'.1 = opp_queue sd w.1 \/ opp_queue sd w'.1 = heappop (opp_queue sd w.1)) /\
  opp_queue (match sd with BUY => SELL | SELL => BUY end) w'.1 =
    opp_queue (match sd with BUY => SELL | SELL => BUY end) w.1 /\
  next_order_id w'.1 = next_order_id w.1 /\ order_map w'.1 = order_map w.1 /\
  same_static w.2 w'.2.
Proof.
  destruct w as [b objs]. unfold market_step.
  destruct (objs !! r) as [m|]; [|discriminate].
  destruct (opp_queue sd b) as [|e q] eqn:Eq; [discriminate|].
  destruct (Z.ltb 0 (quantity m)); [|discriminate].
  destruct (objs !! eref e) as [o|]; [|discriminate].
  intros H. injection H as <-. simpl.
  split; [|split; [|split; [|split]]].
  - destruct (Z.eqb _ 0); [right|left]; destruct sd; simpl in *; rewrite ?Eq; reflexivity.
  - destruct (Z.eqb _ 0); destruct sd; reflexivity.
  - destruct (Z.eqb _ 0); destruct sd; reflexivity.
  - destruct (Z.eqb _ 0); destruct sd; reflexivity.
  - eapply same_static_trans; apply dec_quantity_static.
Qed.

Lemma wf_of_shape (w w' : World) :
  wf w ->
  (bids w'.1 = bids w.1 \/ bids w'.1 = heappop (bids w.1)) ->
  (asks w'.1 = asks w.1 \/ asks w'.1 = heappop (asks w.1)) ->
  next_order_id w'.1 = next_order_id w.1 -> same_static w.2 w'.2 -> wf w'.
Proof.
  intros [Hb Ha Hbs Has Hf] Eb Ea En Hs.
  assert (Hb' : Forall (entry_ok BUY w'.2) (bids w.1))
    by (eapply List.Forall_impl; [|exact Hb]; intros; eapply entry_ok_static; eauto).
  assert (Ha' : Forall (entry_ok SELL w'.2) (asks w.1))
    by (eapply List.Forall_impl; [|exact Ha]; intros; eapply entry_ok_static; eauto).
  constructor.
  - destruct Eb as [-> | ->]; [exact Hb'|now apply Forall_heappop].
  - destruct Ea as [-> | ->]; [exact Ha'|now apply Forall_heappop].
  - destruct Eb as [-> | ->]; [exact Hbs|now apply heappop_sorted].
  - destruct Ea as [-> | ->]; [exact Has|now apply heappop_sorted].
  - rewrite En. eapply fresh_static; eauto.
Qed.

Lemma wf_match_step (now : Z) (w w' : World) :
  wf w -> match_step now w = Some w' -> wf w'.
Proof.
  intros Hw H. apply match_step_shape in H as (Hb & Ha & Hn & _ & Hs).
  eapply wf_of_shape; eauto.
Qed.

Lemma wf_market_step (now : Z) (sd : Side) (r : Ref) (w w' : World) :
  wf w -> market_step now sd r w = Some w' -> wf w'.
Proof.
  intros Hw H. apply market_step_shape in H as (Hq & Ho & Hn & _ & Hs).
  destruct sd; simpl in *; eapply wf_of_shape; eauto.
Qed.

Lemma wf_match_loop (fuel : nat) (now : Z) (w : World) :
  wf w -> wf (match_loop fuel now w).
Proof.
  revert w. induction fuel as [|f IH]; intros w Hw; simpl; [exact Hw|].
  destruct (match_step now w) eqn:E; [|exact Hw].
  apply IH. eapply wf_match_step; eauto.
Qed.

Lemma wf_market_loop (fuel : nat) (now : Z) (sd : Side) (r : Ref) (w : World) :
  wf w -> wf (market_loop fuel now sd r w).
Proof.
  revert w. induction fuel as [|f IH]; intros w Hw; simpl; [exact Hw|].
  destruct (market_step now sd r w) eqn:E; [|exact Hw].
  apply IH. eapply wf_market_step; eauto.
Qed.

Lemma qty_of_dec_eq (objs : Heap) (r : Ref) (d : Z) (o : Order) :
  objs !! r = Some o -> qty_of (dec_quantity r d objs) r = (quantity o - d)%Z.
Proof. intros H. unfold qty_of, dec_quantity. now rewrite lookup_alter_eq, H. Qed.

Lemma qty_of_dec_ne (objs : Heap) (r j : Ref) (d : Z) :
  r <> j -> qty_of (dec_quantity r d objs) j = qty_of objs j.
Proof. intros H. unfold qty_of, dec_quantity. now rewrite lookup_alter_ne. Qed.

Lemma lookup_dec_ne (objs : Heap) (r j : Ref) (d : Z) :
  r <> j -> dec_quantity r d objs !! j = objs !! j.
Proof. intros H. unfold dec_quantity. now rewrite lookup_alter_ne. Qed.

Lemma entry_ok_head (sd : Side) (objs : Heap) (e : Entry) (q : list Entry) :
  Forall (entry_ok sd objs) (e :: q) -> entry_ok sd objs e.
Proof. now inversion 1. Qed.

Definition book_size (w : World) : nat := length (bids w.1) + length (asks w.1).

(** Each iteration of [match_orders] removes at least one resting order:
    the bid and the ask are distinct objects, and the smaller of the two
    quantities is subtracted from both. *)
Lemma match_step_decreases (now : Z) (w w' : World) :
  wf w -> match_step now w = Some w' -> (book_size w' < book_size w)%nat.
Proof.
  intros Hw. destruct w as [b objs]. unfold match_step, book_size. simpl.
  pose proof (wf_bids _ Hw) as Hb. pose proof (wf_asks _ Hw) as Ha. simpl in Hb, Ha.
  destruct (bids b) as [|eb rb] eqn:Eb; [discriminate|].
  destruct (asks b) as [|ea ra] eqn:Ea; [discriminate|].
  apply entry_ok_head in Hb as (ob0 & Hob0 & Hsb & _).
  apply entry_ok_head in Ha as (oa0 & Hoa0 & Hsa & _).
  rewrite Hob0, Hoa0. destruct (Qle_bool (price oa0) (price ob0)); [|discriminate].
  intros H. injection H as <-.
  assert (Hne : eref eb <> eref ea) by (intros E; rewrite E in Hob0; congruence).
  set (tq := Z.min (quantity ob0) (quantity oa0)).
  assert (Qb : qty_of (dec_quantity (eref ea) tq (dec_quantity (eref eb) tq objs)) (eref eb)
               = (quantity ob0 - tq)%Z)
    by (rewrite qty_of_dec_ne by congruence; now apply qty_of_dec_eq).
  assert (Qa : qty_of (dec_quantity (eref ea) tq (dec_quantity (eref eb) tq objs)) (eref ea)
               = (quantity oa0 - tq)%Z)
    by (apply qty_of_dec_eq; rewrite lookup_dec_ne by congruence; exact Hoa0).
  rewrite Qb, Qa.
  destruct (Z.eqb (quantity ob0 - tq) 0)%Z eqn:E1; destruct (Z.eqb (quantity oa0 - tq) 0)%Z eqn:E2;
    simpl; rewrite ?Eb, ?Ea; simpl; lia.
Qed.

Lemma match_loop_exits (fuel : nat) (now : Z) (w : World) :
  wf w -> (book_size w < fuel)%nat -> match_step now (match_loop fuel now w) = None.
Proof.
  revert w. induction fuel as [|f IH]; intros w Hw Hlt; [lia|]. simpl.
  destruct (match_step now w) as [w'|] eqn:E; [|exact E].
  apply IH; [eapply wf_match_step; eauto|].
  pose proof (match_step_decreases _ _ _ Hw E). lia.
Qed.

Lemma match_orders_exits (now : Z) (w : World) :
  wf w -> match_step now (match_orders now w) = None.
Proof. intros Hw. apply match_loop_exits; [exact Hw|]. unfold book_size. lia. Qed.

(** * The book is never left crossed *)

Definition no_cross (b : OrderBook) : Prop :=
  forall eb ea, In eb (bids b) -> In ea (asks b) -> (- ekey eb < ekey ea)%Q.

(** When [match_orders] exits, every bid is below every ask. *)
Lemma exit_no_cross (now : Z) (w : World) :
  wf w -> match_step now w = None -> no_cross w.1.
Proof.
  intros Hw. pose proof (wf_bids _ Hw) as Hb. pose proof (wf_asks _ Hw) as Ha.
  pose proof (wf_bids_sorted _ Hw) as Hbs. pose proof (wf_asks_sorted _ Hw) as Has.
  destruct w as [b objs]. unfold match_step. simpl in *.
  intros H x y Hx Hy.
  destruct (bids b) as [|eb rb] eqn:Eb; [destruct Hx|].
  destruct (asks b) as [|ea ra] eqn:Ea; [destruct Hy|].
  apply entry_ok_head in Hb as (ob & Hob & _ & _ & _ & Hkb & _).
  apply entry_ok_head in Ha as (oa & Hoa & _ & _ & _ & Hka & _).
  rewrite Hob, Hoa in H.
  destruct (Qle_bool (price oa) (price ob)) eqn:Ec; [discriminate|].
  assert (Hlt : (price ob < price oa)%Q).
  { apply Qnot_le_lt. intros Hle. apply Qle_bool_iff in Hle. congruence. }
  pose proof (sorted_head_least _ _ _ Hbs Hx) as H1.
  pose proof (sorted_head_least _ _ _ Has Hy) as H2.
  unfold entry_le in H1, H2. simpl in Hkb, Hka. rewrite Hkb in H1. rewrite Hka in H2.
  apply Qopp_le_compat in H1. rewrite Qopp_involutive in H1.
  eapply Qle_lt_trans; [exact H1|]. eapply Qlt_le_trans; [exact Hlt|exact H2].
Qed.

Lemma no_cross_sub (b b' : OrderBook) :
  (forall e, In e (bids b') -> In e (bids b)) ->
  (forall e, In e (asks b') -> In e (asks b)) ->
  no_cross b -> no_cross b'.
Proof. intros Hb Ha H x y Hx Hy. apply H; auto. Qed.

Lemma no_cross_market_loop (fuel : nat) (now : Z) (sd : Side) (r : Ref) (w : World) :
  no_cross w.1 -> no_cross (market_loop fuel now sd r w).1.
Proof.
  revert w. induction fuel as [|f IH]; intros w Hw; simpl; [exact Hw|].
  destruct (market_step now sd r w) as [w'|] eqn:E; [|exact Hw].
  apply IH. apply market_step_shape in E as (Hq & Ho & _).
  eapply no_cross_sub; [| |exact Hw]; intros e He; destruct sd; simpl in *;
    try (rewrite Ho in He; exact He);
    destruct Hq as [Hq|Hq]; rewrite Hq in He; auto using heappop_incl.
Qed.

Lemma wf_market_order_loop (now : Z) (r : Ref) (w : World) :
  wf w /\ no_cross w.1 -> wf (handle_market_order now r w).2 /\ no_cross (handle_market_order now r w).2.1.
Proof.
  intros [Hw Hn]. unfold handle_market_order.
  destruct (w.2 !! r) as [m|]; [|auto].
  destruct (opp_queue (side m) w.1); [auto|]. cbn [fst snd].
  split; [now apply wf_market_loop|now apply no_cross_market_loop].
Qed.

(** ** [cancel_order] only removes entries *)

Lemma Forall_heapify_filter (P : Entry -> Prop) (f : Entry -> bool) (l : list Entry) :
  Forall P l -> Forall P (heapify (List.filter f l)).
Proof.
  intros H. apply (Permutation_Forall (Permutation_sym (heapify_perm _))).
  rewrite List.Forall_forall in H |- *. intros x Hx. apply filter_In in Hx. now apply H.
Qed.

Lemma In_heapify_filter (f : Entry -> bool) (l : list Entry) (e : Entry) :
  In e (heapify (List.filter f l)) <-> In e l /\ f e = true.
Proof.
  split.
  - intros H. apply (Permutation_in _ (heapify_perm _)) in H. now apply filter_In.
  - intros H. apply (Permutation_in _ (Permutation_sym (heapify_perm _))). now apply filter_In.
Qed.

Lemma cancel_inv (oid : nat) (w : World) :
  wf w /\ no_cross w.1 -> wf (cancel_order oid w).2 /\ no_cross (cancel_order oid w).2.1.
Proof.
  intros [Hw Hn]. destruct Hw as [Hb Ha Hbs Has Hf].
  destruct w as [b objs]. unfold cancel_order. simpl in *.
  destruct (order_map b !! oid) as [r|]; [|split; [constructor|]; auto].
  destruct (objs !! r) as [o|]; [destruct (side o)|]; simpl; split;
    try (constructor; simpl; auto using Forall_heapify_filter, heapify_sorted).
  - eapply no_cross_sub; [| |exact Hn]; simpl; [|auto].
    intros e He. now apply In_heapify_filter in He.
  - eapply no_cross_sub; [| |exact Hn]; simpl; [auto|].
    intros e He. now apply In_heapify_filter in He.
  - exact Hn.
Qed.

(** ** [add_order_api] *)

Lemma add_order_api_world (now : Z) (sd : Side) (pr : Q) (q : Z) (ot : OrderType)
    (p : string) (w : World) :
  (add_order_api now sd pr q ot p w).2 =
  (add_order now (next_order_id w.1)
     (set_next_order_id w.1 (S (next_order_id w.1)),
      <[next_order_id w.1 := mkOrder (next_order_id w.1) sd pr q ot now p]> w.2)).2.
Proof.
  destruct w as [b objs]. unfold add_order_api. simpl.
  destruct (add_order _ _ _) as [s w']. reflexivity.
Qed.

(** Allocating the object of the next id keeps the state well formed. *)
Lemma wf_alloc (b : OrderBook) (objs : Heap) (o : Order) :
  wf (b, objs) ->
  wf (set_next_order_id b (S (next_order_id b)), <[next_order_id b := o]> objs).
Proof.
  intros [Hb Ha Hbs Has Hf]. simpl in *.
  assert (K : forall sd e, entry_ok sd objs e -> entry_ok sd (<[next_order_id b := o]> objs) e).
  { intros sd e (o' & Ho' & Hrest). exists o'. split; [|exact Hrest].
    rewrite lookup_insert_ne; [exact Ho'|]. apply Hf in Ho'. lia. }
  constructor; simpl.
  - eapply List.Forall_impl; [|exact Hb]. apply K.
  - eapply List.Forall_impl; [|exact Ha]. apply K.
  - exact Hbs.
  - exact Has.
  - intros r o' Ho'. rewrite lookup_insert in Ho'. case_decide.
    + lia.
    + apply Hf in Ho'. lia.
Qed.

Lemma wf_push_bid (b : OrderBook) (objs : Heap) (e : Entry) :
  wf (b, objs) -> entry_ok BUY objs e -> wf (set_bids b (heappush (bids b) e), objs).
Proof.
  intros [Hb Ha Hbs Has Hf] He. constructor; simpl in *; auto using heappush_sorted.
  apply (Permutation_Forall (Permutation_sym (heappush_perm _ _))). now constructor.
Qed.

Lemma wf_push_ask (b : OrderBook) (objs : Heap) (e : Entry) :
  wf (b, objs) -> entry_ok SELL objs e -> wf (set_asks b (heappush (asks b) e), objs).
Proof.
  intros [Hb Ha Hbs Has Hf] He. constructor; simpl in *; auto using heappush_sorted.
  apply (Permutation_Forall (Permutation_sym (heappush_perm _ _))). now constructor.
Qed.

Lemma wf_set_order_map (b : OrderBook) (objs : Heap) (m : gmap nat Ref) :
  wf (b, objs) -> wf (set_order_map b m, objs).
Proof. intros [Hb Ha Hbs Has Hf]. now constructor. Qed.

Lemma match_orders_inv (now : Z) (w : World) :
  wf w -> wf (match_orders now w) /\ no_cross (match_orders now w).1.
Proof.
  intros Hw. split; [now apply wf_match_loop|].
  eapply exit_no_cross; [now apply wf_match_loop|]. now apply match_orders_exits.
Qed.

Lemma add_order_api_inv (now : Z) (sd : Side) (pr : Q) (q : Z) (ot : OrderType)
    (p : string) (w : World) :
  wf w /\ no_cross w.1 ->
  wf (add_order_api now sd pr q ot p w).2 /\ no_cross (add_order_api now sd pr q ot p w).2.1.
Proof.
  intros [Hw Hn]. rewrite add_order_api_world. destruct w as [b objs]. simpl in *.
  pose proof (wf_alloc b objs (mkOrder (next_order_id b) sd pr q ot now p) Hw) as Hw1.
  unfold add_order. cbn [fst snd]. rewrite lookup_insert_eq. cbn [order_type side price timestamp order_id].
  destruct ot.
  - apply wf_market_order_loop. split; [exact Hw1|exact Hn].
  - destruct sd; cbn [snd]; apply match_orders_inv, wf_set_order_map.
    + apply wf_push_bid; [exact Hw1|].
      eexists. split; [apply lookup_insert_eq|]. simpl. repeat split.
    + apply wf_push_ask; [exact Hw1|].
      eexists. split; [apply lookup_insert_eq|]. simpl. repeat split.
Qed.

Definition inv (w : World) : Prop := wf w /\ no_cross w.1.

Lemma inv_init : inv init_world.
Proof.
  split; [constructor; simpl; try constructor|intros ? ? []].
  rewrite lookup_empty in *. discriminate.
Qed.

Lemma inv_step (w : World) (op : Op) : inv w -> inv (step w op).
Proof.
  destruct op; simpl; intros H; [now apply add_order_api_inv|now apply cancel_inv].
Qed.

Lemma inv_run (ops : list Op) (w : World) : inv w -> inv (run w ops).
Proof.
  revert w. induction ops as [|op r IH]; intros w Hw; simpl; [exact Hw|].
  apply IH, inv_step, Hw.
Qed.

Lemma reachable_inv (w : World) : reachable w -> inv w.
Proof. intros [ops ->]. apply inv_run, inv_init. Qed.

(** The order objects resting in a queue. *)
Fixpoint resting (objs : Heap) (q : list Entry) : list Order :=
  match q with
  | [] => []
  | e :: r => match objs !! eref e with
              | Some o => o :: resting objs r
              | None => resting objs r
              end
  end.

Lemma In_resting (objs : Heap) (q : list Entry) (o : Order) :
  In o (resting objs q) -> exists e, In e q /\ objs !! eref e = Some o.
Proof.
  induction q as [|e r IH]; simpl; [easy|].
  destruct (objs !! eref e) eqn:E; [intros [<- | H]|intros H].
  - now exists e; split; [left|].
  - destruct (IH H) as (e' & ? & ?). now exists e'; split; [right|].
  - destruct (IH H) as (e' & ? & ?). now exists e'; split; [right|].
Qed.

Lemma entry_ok_price (sd : Side) (objs : Heap) (e : Entry) (o : Order) :
  entry_ok sd objs e -> objs !! eref e = Some o -> ekey e = side_key sd (price o).
Proof. intros (o' & Ho' & _ & _ & _ & Hk & _) Ho. rewrite Ho in Ho'. now injection Ho' as ->. Qed.

(** [C1] No crossed book: in every state reachable from the empty book by
    submissions (limit or market) and cancellations, every resting bid price
    is strictly below every resting ask price. *)
Theorem no_crossed_book (w : World) :
  reachable w ->
  forall ob oa, In ob (resting w.2 (bids w.1)) -> In oa (resting w.2 (asks w.1)) ->
  (price ob < price oa)%Q.
Proof.
  intros Hr ob oa Hb Ha. destruct (reachable_inv w Hr) as [[HB HA _ _ _] Hn].
  apply In_resting in Hb as (eb & Heb & Hob). apply In_resting in Ha as (ea & Hea & Hoa).
  pose proof (Hn eb ea Heb Hea) as H.
  rewrite List.Forall_forall in HB, HA.
  rewrite (entry_ok_price _ _ _ _ (HB _ Heb) Hob) in H.
  rewrite (entry_ok_price _ _ _ _ (HA _ Hea) Hoa) in H.
  simpl in H. now rewrite Qopp_involutive in H.
Qed.

Definition scen_c1 : World :=
  run init_world [Submit 1 BUY 99 5 LIMIT "a"; Submit 2 SELL 101 5 LIMIT "b";
                  Submit 3 BUY 98 2 LIMIT "a"; Cancel 3].

Lemma no_crossed_book_witness :
  reachable scen_c1 /\
  forall ob oa, In ob (resting scen_c1.2 (bids scen_c1.1)) ->
    In oa (resting scen_c1.2 (asks scen_c1.1)) -> (price ob < price oa)%Q.
Proof.
  assert (H : reachable scen_c1) by (eexists; reflexivity).
  split; [exact H|]. exact (no_crossed_book scen_c1 H).
Defined.

(** * Price priority of the queue heads *)

Lemma best_bid_max (w : World) (eb : Entry) (rb : list Entry) (ob : Order) :
  wf w -> bids w.1 = eb :: rb -> w.2 !! eref eb = Some ob ->
  forall o, In o (resting w.2 (bids w.1)) -> (price o <= price ob)%Q.
Proof.
  intros [HB _ HS _ _] Eb Hob o Ho. apply In_resting in Ho as (e & He & Hoe).
  rewrite Eb in HB, HS, He.
  pose proof (sorted_head_least _ _ _ HS He) as Hle. unfold entry_le in Hle.
  rewrite List.Forall_forall in HB.
  rewrite (entry_ok_price _ _ _ _ (HB _ (or_introl eq_refl)) Hob) in Hle.
  rewrite (entry_ok_price _ _ _ _ (HB _ He) Hoe) in Hle. simpl in Hle.
  apply Qopp_le_compat in Hle. now rewrite !Qopp_involutive in Hle.
Qed.

Lemma best_ask_min (w : World) (ea : Entry) (ra : list Entry) (oa : Order) :
  wf w -> asks w.1 = ea :: ra -> w.2 !! eref ea = Some oa ->
  forall o, In o (resting w.2 (asks w.1)) -> (price oa <= price o)%Q.
Proof.
  intros [_ HA _ HS _] Ea Hoa o Ho. apply In_resting in Ho as (e & He & Hoe).
  rewrite Ea in HA, HS, He.
  pose proof (sorted_head_least _ _ _ HS He) as Hle. unfold entry_le in Hle.
  rewrite List.Forall_forall in HA.
  rewrite (entry_ok_price _ _ _ _ (HA _ (or_introl eq_refl)) Hoa) in Hle.
  now rewrite (entry_ok_price _ _ _ _ (HA _ He) Hoe) in Hle.
Qed.

(** * One iteration of [match_orders] *)

Lemma match_step_exec (now : Z) (w : World) (eb ea : Entry) (rb ra : list Entry) (ob oa : Order) :
  wf w -> bids w.1 = eb :: rb -> asks w.1 = ea :: ra ->
  w.2 !! eref eb = Some ob -> w.2 !! eref ea = Some oa -> (price oa <= price ob)%Q ->
  exists w', match_step now w = Some w' /\
    trades w'.1 = trades w.1 ++ [mkTrade now (price oa) (Z.min (quantity ob) (quantity oa))
                                   (if Z.ltb (timestamp oa) (timestamp ob) then BUY else SELL)] /\
    qty_of w'.2 (eref eb) = (quantity ob - Z.min (quantity ob) (quantity oa))%Z /\
    qty_of w'.2 (eref ea) = (quantity oa - Z.min (quantity ob) (quantity oa))%Z /\
    bids w'.1 = (if Z.eqb (quantity ob - Z.min (quantity ob) (quantity oa)) 0 then rb else eb :: rb) /\
    asks w'.1 = (if Z.eqb (quantity oa - Z.min (quantity ob) (quantity oa)) 0 then ra else ea :: ra).
Proof.
  intros Hw Eb Ea Hob Hoa Hle.
  assert (Hne : eref eb <> eref ea).
  { destruct Hw as [HB HA _ _ _]. rewrite Eb in HB. rewrite Ea in HA.
    apply entry_ok_head in HB as (x & Hx & Hsx & _).
    apply entry_ok_head in HA as (y & Hy & Hsy & _).
    intros E. rewrite E in Hx. congruence. }
  destruct w as [b objs]. simpl in *. unfold match_step.
  rewrite Eb, Ea, Hob, Hoa. apply Qle_bool_iff in Hle. rewrite Hle.
  set (tq := Z.min (quantity ob) (quantity oa)).
  set (objs2 := dec_quantity (eref ea) tq (dec_quantity (eref eb) tq objs)).
  assert (Qb : qty_of objs2 (eref eb) = (quantity ob - tq)%Z)
    by (unfold objs2; rewrite qty_of_dec_ne by congruence; now apply qty_of_dec_eq).
  assert (Qa : qty_of objs2 (eref ea) = (quantity oa - tq)%Z)
    by (unfold objs2; apply qty_of_dec_eq; rewrite lookup_dec_ne by congruence; exact Hoa).
  eexists. split; [reflexivity|]. rewrite Qb, Qa.
  destruct (Z.eqb (quantity ob - tq) 0); destruct (Z.eqb (quantity oa - tq) 0);
    simpl; rewrite ?Eb, ?Ea; repeat split; assumption.
Qed.

(** The state in the middle of [add_order] for the spec's scenario: the
    bid [(100, 10)] rests, the ask [(99, 5)] has just been pushed. *)
Definition crossed_c2 : World :=
  let w := run init_world [Submit 1 BUY 100 10 LIMIT "a"] in
  (set_asks (set_next_order_id w.1 3) (heappush (asks w.1) (99%Q, 2%Z, 2%nat)),
   <[2%nat := mkOrder 2 SELL 99 5 LIMIT 2 "b"]> w.2).

Lemma crossed_c2_wf : wf crossed_c2.
Proof.
  set (w := run init_world [Submit 1 BUY 100 10 LIMIT "a"]).
  assert (Hw : wf w) by (apply (reachable_inv w); eexists; reflexivity).
  assert (Hn : next_order_id w.1 = 2%nat) by reflexivity.
  destruct w as [b objs] eqn:E. simpl in Hn.
  pose proof (wf_alloc b objs (mkOrder 2 SELL 99 5 LIMIT 2 "b") Hw) as H1.
  rewrite Hn in H1. unfold crossed_c2. fold w. rewrite E. simpl.
  change (set_asks (set_next_order_id b 3) (heappush (asks b) (99%Q, 2%Z, 2%nat)))
    with (set_asks (set_next_order_id b 3) (heappush (asks (set_next_order_id b 3)) (99%Q, 2%Z, 2%nat))).
  apply wf_push_ask; [exact H1|].
  eexists. split; [apply lookup_insert_eq|]. simpl. repeat split.
Qed.

(** When [match_orders] returns, the best bid is below the best ask. *)
Lemma match_orders_uncrossed_heads (now : Z) (w : World) :
  wf w -> forall eb ea rb ra ob oa,
  bids (match_orders now w).1 = eb :: rb -> asks (match_orders now w).1 = ea :: ra ->
  (match_orders now w).2 !! eref eb = Some ob -> (match_orders now w).2 !! eref ea = Some oa ->
  (price ob < price oa)%Q.
Proof.
  intros Hw eb ea rb ra ob oa Eb Ea Hob Hoa.
  pose proof (match_orders_exits now w Hw) as H.
  destruct (match_orders now w) as [b objs]. simpl in *. unfold match_step in H.
  rewrite Eb, Ea, Hob, Hoa in H.
  destruct (Qle_bool (price oa) (price ob)) eqn:E; [discriminate|].
  apply Qnot_le_lt. intros Hle. apply Qle_bool_iff in Hle. congruence.
Qed.

(** [C2] Continuous limit matching.  [add_order] runs [match_orders] after
    every limit insertion.  (1) While the best bid (the highest resting bid
    price) is at or above the best ask (the lowest resting ask price), one
    iteration trades [min(best_bid_qty, best_ask_qty)] at the ask's price,
    tags the trade with the side of the order with the later timestamp,
    decrements both quantities and pops the order(s) left with zero;
    (2) the loop returns only once no cross remains or a side is empty;
    (3) from the empty book, LIMIT BUY 100 x 10 then LIMIT SELL 99 x 5
    yields the single trade (99, 5), the single bid (100, 5) and no ask. *)
Theorem continuous_limit_matching :
  (forall now w eb ea rb ra ob oa,
     wf w -> bids w.1 = eb :: rb -> asks w.1 = ea :: ra ->
     w.2 !! eref eb = Some ob -> w.2 !! eref ea = Some oa -> (price oa <= price ob)%Q ->
     (forall o, In o (resting w.2 (bids w.1)) -> (price o <= price ob)%Q) /\
     (forall o, In o (resting w.2 (asks w.1)) -> (price oa <= price o)%Q) /\
     exists w' tag, match_step now w = Some w' /\
       trades w'.1 = trades w.1 ++
         [mkTrade now (price oa) (Z.min (quantity ob) (quantity oa)) tag] /\
       ((timestamp oa < timestamp ob)%Z -> tag = BUY) /\
       ((timestamp ob < timestamp oa)%Z -> tag = SELL) /\
       qty_of w'.2 (eref eb) = (quantity ob - Z.min (quantity ob) (quantity oa))%Z /\
       qty_of w'.2 (eref ea) = (quantity oa - Z.min (quantity ob) (quantity oa))%Z /\
       bids w'.1 = (if Z.eqb (quantity ob - Z.min (quantity ob) (quantity oa)) 0
                    then rb else eb :: rb) /\
       asks w'.1 = (if Z.eqb (quantity oa - Z.min (quantity ob) (quantity oa)) 0
                    then ra else ea :: ra)) /\
  (forall now w, wf w -> forall eb ea rb ra ob oa,
     bids (match_orders now w).1 = eb :: rb -> asks (match_orders now w).1 = ea :: ra ->
     (match_orders now w).2 !! eref eb = Some ob -> (match_orders now w).2 !! eref ea = Some oa ->
     (price ob < price oa)%Q) /\
  (map (fun t => (trade_price t, trade_quantity t)) (trades scen_c2.1) = [(99%Q, 5%Z)] /\
   get_order_book scen_c2 = ([(100%Q, 5%Z)], [])).
Proof.
  split; [|split; [exact match_orders_uncrossed_heads|]].
  - intros now w eb ea rb ra ob oa Hw Eb Ea Hob Hoa Hle.
    split; [eapply best_bid_max; eauto|]. split; [eapply best_ask_min; eauto|].
    destruct (match_step_exec now w eb ea rb ra ob oa Hw Eb Ea Hob Hoa Hle)
      as (w' & H1 & H2 & H3 & H4 & H5 & H6).
    exists w', (if Z.ltb (timestamp oa) (timestamp ob) then BUY else SELL).
    repeat split; try assumption.
    + intros H. apply Z.ltb_lt in H. now rewrite H.
    + intros H. destruct (Z.ltb (timestamp oa) (timestamp ob)) eqn:E; [|reflexivity].
      apply Z.ltb_lt in E. lia.
  - vm_compute. split; reflexivity.
Qed.

Lemma continuous_limit_matching_witness :
  wf crossed_c2 /\
  exists w' tag, match_step 3%Z crossed_c2 = Some w' /\
    trades w'.1 = trades crossed_c2.1 ++ [mkTrade 3%Z 99%Q 5%Z tag].
Proof.
  split; [exact crossed_c2_wf|].
  destruct (proj1 continuous_limit_matching 3%Z crossed_c2 ((-100)%Q, 1%Z, 1%nat) (99%Q, 2%Z, 2%nat)
              [] [] (mkOrder 1 BUY 100 10 LIMIT 1 "a") (mkOrder 2 SELL 99 5 LIMIT 2 "b")
              crossed_c2_wf ltac:(vm_compute; reflexivity) ltac:(vm_compute; reflexivity)
              ltac:(vm_compute; reflexivity) ltac:(vm_compute; reflexivity)
              ltac:(vm_compute; discriminate))
    as (_ & _ & w' & tag & H1 & H2 & _).
  exists w', tag. split; [exact H1|exact H2].
Defined.

(** * The market-order loop *)

Definition other (sd : Side) : Side := match sd with BUY => SELL | SELL => BUY end.

Lemma wf_opp (sd : Side) (w : World) :
  wf w -> Forall (entry_ok (other sd) w.2) (opp_queue sd w.1).
Proof. intros [HB HA _ _ _]. now destruct sd. Qed.

Lemma wf_opp_sorted (sd : Side) (w : World) :
  wf w -> StronglySorted entry_le (opp_queue sd w.1).
Proof. intros [_ _ HB HA _]. now destruct sd. Qed.

(** The market order at [r] is alive, on side [sd], with a non-negative
    remaining quantity. *)
Definition mkt_ok (sd : Side) (r : Ref) (w : World) : Prop :=
  exists m, w.2 !! r = Some m /\ side m = sd /\ (0 <= quantity m)%Z.

Lemma market_step_exec (now : Z) (sd : Side) (r : Ref) (w : World) (m o : Order)
    (e : Entry) (q : list Entry) :
  wf w -> w.2 !! r = Some m -> side m = sd -> opp_queue sd w.1 = e :: q ->
  w.2 !! eref e = Some o -> (0 < quantity m)%Z ->
  exists w', market_step now sd r w = Some w' /\
    trades w'.1 = trades w.1 ++
      [mkTrade now (price o) (Z.min (quantity m) (quantity o)) sd] /\
    qty_of w'.2 (eref e) = (quantity o - Z.min (quantity m) (quantity o))%Z /\
    qty_of w'.2 r = (quantity m - Z.min (quantity m) (quantity o))%Z /\
    opp_queue sd w'.1 = (if Z.eqb (quantity o - Z.min (quantity m) (quantity o)) 0
                         then q else e :: q) /\
    opp_queue (other sd) w'.1 = opp_queue (other sd) w.1 /\
    order_map w'.1 = order_map w.1.
Proof.
  intros Hw Hm Hsm Eq Ho Hpos.
  assert (Hne : eref e <> r).
  { pose proof (wf_opp sd w Hw) as H. rewrite Eq in H.
    apply entry_ok_head in H as (x & Hx & Hsx & _). intros E. rewrite E, Hm in Hx.
    injection Hx as <-. destruct sd; simpl in *; congruence. }
  destruct w as [b objs]. simpl in *. unfold market_step.
  rewrite Hm, Eq. apply Z.ltb_lt in Hpos. rewrite Hpos, Ho.
  set (tq := Z.min (quantity m) (quantity o)).
  set (objs2 := dec_quantity r tq (dec_quantity (eref e) tq objs)).
  assert (Qo : qty_of objs2 (eref e) = (quantity o - tq)%Z)
    by (unfold objs2; rewrite qty_of_dec_ne by congruence; now apply qty_of_dec_eq).
  assert (Qm : qty_of objs2 r = (quantity m - tq)%Z)
    by (unfold objs2; apply qty_of_dec_eq; rewrite lookup_dec_ne by congruence; exact Hm).
  eexists. split; [reflexivity|]. rewrite Qo.
  destruct (Z.eqb (quantity o - tq) 0); destruct sd; simpl in *;
    rewrite ?Eq; repeat split; assumption.
Qed.

Lemma market_step_some (now : Z) (sd : Side) (r : Ref) (w w' : World) :
  market_step now sd r w = Some w' ->
  exists m e q o, w.2 !! r = Some m /\ opp_queue sd w.1 = e :: q /\
    w.2 !! eref e = Some o /\ (0 < quantity m)%Z.
Proof.
  destruct w as [b objs]. unfold market_step. simpl.
  destruct (objs !! r) as [m|] eqn:E1; [|discriminate].
  destruct (opp_queue sd b) as [|e q] eqn:E2; [discriminate|].
  destruct (Z.ltb 0 (quantity m)) eqn:E; [|discriminate].
  destruct (objs !! eref e) as [o|] eqn:E3; [|discriminate].
  intros _. exists m, e, q, o. apply Z.ltb_lt in E. auto.
Qed.

Definition mkt_measure (sd : Side) (r : Ref) (w : World) : nat :=
  length (opp_queue sd w.1) + (if Z.ltb 0 (qty_of w.2 r) then 1 else 0).

Lemma market_step_progress (now : Z) (sd : Side) (r : Ref) (w w' : World) :
  wf w -> mkt_ok sd r w -> market_step now sd r w = Some w' ->
  mkt_ok sd r w' /\ (mkt_measure sd r w' < mkt_measure sd r w)%nat.
Proof.
  intros Hw (m0 & Hm0 & Hs0 & Hq0) H.
  destruct (market_step_some _ _ _ _ _ H) as (m & e & q & o & Hm & Eq & Ho & Hpos).
  rewrite Hm in Hm0. injection Hm0 as <-.
  destruct (market_step_exec now sd r w m o e q Hw Hm Hs0 Eq Ho Hpos)
    as (w'' & H' & _ & _ & Qm & Eq' & _).
  rewrite H in H'. injection H' as <-.
  split.
  - pose proof (market_step_shape _ _ _ _ _ H) as (_ & _ & _ & _ & Hs).
    specialize (Hs r). rewrite Hm in Hs.
    unfold qty_of in Qm. destruct (w'.2 !! r) as [m'|] eqn:Hm'; [|discriminate].
    simpl in Hs. injection Hs. unfold order_static. intros. exists m'.
    repeat split; [exact Hm'|congruence|lia].
  - unfold mkt_measure. rewrite Eq', Eq, Qm.
    assert (Hm_r : qty_of w.2 r = quantity m) by (unfold qty_of; now rewrite Hm).
    rewrite Hm_r. apply Z.ltb_lt in Hpos as Hp. rewrite Hp.
    destruct (Z.eqb (quantity o - Z.min (quantity m) (quantity o)) 0) eqn:E; simpl.
    + destruct (Z.ltb 0 (quantity m - Z.min (quantity m) (quantity o))); lia.
    + apply Z.eqb_neq in E.
      assert (Z.ltb 0 (quantity m - Z.min (quantity m) (quantity o)) = false) as ->
        by (apply Z.ltb_ge; lia).
      lia.
Qed.

Lemma market_loop_exits (fuel : nat) (now : Z) (sd : Side) (r : Ref) (w : World) :
  wf w -> mkt_ok sd r w -> (mkt_measure sd r w < fuel)%nat ->
  mkt_ok sd r (market_loop fuel now sd r w) /\
  market_step now sd r (market_loop fuel now sd r w) = None.
Proof.
  revert w. induction fuel as [|f IH]; intros w Hw Hm Hlt; [lia|]. simpl.
  destruct (market_step now sd r w) as [w'|] eqn:E; [|auto].
  destruct (market_step_progress _ _ _ _ _ Hw Hm E) as [Hm' Hlt'].
  apply IH; [eapply wf_market_step; eauto|exact Hm'|lia].
Qed.

Lemma market_exit_state (now : Z) (sd : Side) (r : Ref) (w : World) :
  wf w -> mkt_ok sd r w -> market_step now sd r w = None ->
  qty_of w.2 r = 0%Z \/ opp_queue sd w.1 = [].
Proof.
  intros Hw (m & Hm & Hs & Hq). pose proof (wf_opp sd w Hw) as Ho.
  destruct w as [b objs]. unfold market_step. simpl in *. rewrite Hm.
  destruct (opp_queue sd b) as [|e q]; [auto|].
  apply entry_ok_head in Ho as (o & Hlo & _). rewrite Hlo.
  destruct (Z.ltb 0 (quantity m)) eqn:E; [discriminate|].
  intros _. left. unfold qty_of. rewrite Hm. apply Z.ltb_ge in E. lia.
Qed.

Lemma market_loop_frame (fuel : nat) (now : Z) (sd : Side) (r : Ref) (w : World) :
  opp_queue (other sd) (market_loop fuel now sd r w).1 = opp_queue (other sd) w.1 /\
  order_map (market_loop fuel now sd r w).1 = order_map w.1 /\
  next_order_id (market_loop fuel now sd r w).1 = next_order_id w.1 /\
  (forall e, In e (opp_queue sd (market_loop fuel now sd r w).1) -> In e (opp_queue sd w.1)).
Proof.
  revert w. induction fuel as [|f IH]; intros w; simpl; [auto|].
  destruct (market_step now sd r w) as [w'|] eqn:E; [|auto].
  destruct (IH w') as (H1 & H2 & H3 & H4).
  apply market_step_shape in E as (Hq & Ho & Hn & Hmap & _).
  rewrite H1, H2, H3. repeat split; [exact Ho|exact Hmap|exact Hn|].
  intros e He. apply H4 in He. destruct Hq as [Hq|Hq]; rewrite Hq in He; auto using heappop_incl.
Qed.

(** [add_order_api] on a market order. *)
Lemma add_order_api_market (now : Z) (sd : Side) (pr : Q) (q : Z) (p : string)
    (b : OrderBook) (objs : Heap) :
  add_order_api now sd pr q MARKET p (b, objs) =
  let oid := next_order_id b in
  let w1 := (set_next_order_id b (S oid), <[oid := mkOrder oid sd pr q MARKET now p]> objs) in
  match opp_queue sd b with
  | [] => (false, None, w1)
  | _ :: _ => (true, Some oid, market_loop (S (S (length (opp_queue sd b)))) now sd oid w1)
  end.
Proof.
  unfold add_order_api, add_order, handle_market_order. simpl.
  rewrite lookup_insert_eq. simpl.
  assert (E : opp_queue sd (set_next_order_id b (S (next_order_id b))) = opp_queue sd b)
    by (destruct sd; reflexivity).
  rewrite E. destruct (opp_queue sd b); reflexivity.
Qed.

(** The better of two prices for a market order on side [sd]: the lower ask
    for a BUY, the higher bid for a SELL. *)
Definition at_least_as_good (sd : Side) (p p' : Q) : Prop :=
  match sd with BUY => (p <= p')%Q | SELL => (p' <= p)%Q end.

Definition scen_c3 : World := run init_world [Submit 1 SELL 100 10 LIMIT "a"].

Lemma opp_queue_set_next (sd : Side) (b : OrderBook) (n : nat) :
  opp_queue sd (set_next_order_id b n) = opp_queue sd b.
Proof. now destruct sd. Qed.

(** [C3] Market execution.  (1) A market order of positive quantity
    submitted while the opposite side has a resting order is accepted with
    its id; it is never indexed and never rests (the index and its own side's
    queue are unchanged, the opposite queue only loses entries), and the loop
    stops only once the order is fully filled or the opposite side is
    exhausted.  (2) Each iteration takes the best-priced resting order of
    the opposite side (lowest ask for a BUY, highest bid for a SELL), trades
    [min(remaining, resting_qty)] at the resting order's price, tags the trade
    with the market order's side, decrements both and pops the resting
    order when it reaches zero.  (3) With only ask (100, 10) resting, MARKET
    BUY 15 is accepted, records the single trade (100, 10), empties the book
    and leaves nothing of the market order behind. *)
Theorem market_execution :
  (forall now sd pr q p w, reachable w -> (0 < q)%Z -> opp_queue sd w.1 <> [] ->
     (add_order_api now sd pr q MARKET p w).1 = (true, Some (next_order_id w.1)) /\
     order_map (add_order_api now sd pr q MARKET p w).2.1 = order_map w.1 /\
     opp_queue (other sd) (add_order_api now sd pr q MARKET p w).2.1 = opp_queue (other sd) w.1 /\
     (forall e, In e (opp_queue sd (add_order_api now sd pr q MARKET p w).2.1) ->
                In e (opp_queue sd w.1)) /\
     (qty_of (add_order_api now sd pr q MARKET p w).2.2 (next_order_id w.1) = 0%Z \/
      opp_queue sd (add_order_api now sd pr q MARKET p w).2.1 = [])) /\
  (forall now sd r w m e q o, wf w -> w.2 !! r = Some m -> side m = sd ->
     opp_queue sd w.1 = e :: q -> w.2 !! eref e = Some o -> (0 < quantity m)%Z ->
     (forall o', In o' (resting w.2 (opp_queue sd w.1)) -> at_least_as_good sd (price o) (price o')) /\
     exists w', market_step now sd r w = Some w' /\
       trades w'.1 = trades w.1 ++ [mkTrade now (price o) (Z.min (quantity m) (quantity o)) sd] /\
       qty_of w'.2 (eref e) = (quantity o - Z.min (quantity m) (quantity o))%Z /\
       qty_of w'.2 r = (quantity m - Z.min (quantity m) (quantity o))%Z /\
       opp_queue sd w'.1 = (if Z.eqb (quantity o - Z.min (quantity m) (quantity o)) 0
                            then q else e :: q)) /\
  ((add_order_api 2 BUY 0 15 MARKET "m" scen_c3).1 = (true, Some 2%nat) /\
   map (fun t => (trade_price t, trade_quantity t))
     (trades (add_order_api 2 BUY 0 15 MARKET "m" scen_c3).2.1) = [(100%Q, 10%Z)] /\
   get_order_book (add_order_api 2 BUY 0 15 MARKET "m" scen_c3).2 = ([], []) /\
   order_map (add_order_api 2 BUY 0 15 MARKET "m" scen_c3).2.1 !! 2%nat = None).
Proof.
  split; [|split].
  - intros now sd pr q p w Hr Hq Hne.
    destruct w as [b objs].
    pose proof (wf_alloc b objs (mkOrder (next_order_id b) sd pr q MARKET now p)
                  (proj1 (reachable_inv _ Hr))) as Hw1.
    rewrite add_order_api_market. cbn [fst snd] in *. cbv zeta.
    destruct (opp_queue sd b) as [|e l] eqn:Eq; [contradiction|].
    set (w1 := (set_next_order_id b (S (next_order_id b)),
                <[next_order_id b := mkOrder (next_order_id b) sd pr q MARKET now p]> objs)).
    assert (Hm1 : mkt_ok sd (next_order_id b) w1).
    { eexists. split; [apply lookup_insert_eq|]. simpl. split; [reflexivity|lia]. }
    assert (Hq1 : opp_queue sd w1.1 = e :: l) by (simpl; now rewrite opp_queue_set_next).
    destruct (market_loop_exits (S (S (length (e :: l)))) now sd (next_order_id b) w1 Hw1 Hm1)
      as [Hm2 Hex].
    { unfold mkt_measure. rewrite Hq1. destruct (Z.ltb _ _); simpl; lia. }
    destruct (market_loop_frame (S (S (length (e :: l)))) now sd (next_order_id b) w1)
      as (F1 & F2 & _ & F4).
    cbn [fst snd]. split; [reflexivity|].
    rewrite F1, F2. split; [reflexivity|]. split; [destruct sd; reflexivity|].
    split.
    + intros x Hx. apply F4 in Hx. rewrite Hq1 in Hx. first [exact Hx | now rewrite Eq].
    + eapply market_exit_state; [|exact Hm2|exact Hex].
      apply wf_market_loop, Hw1.
  - intros now sd r w m e q o Hw Hm Hs Eq Ho Hpos. split.
    + intros o' Ho'. destruct sd; simpl in *.
      * eapply best_ask_min; eauto.
      * eapply best_bid_max; eauto.
    + destruct (market_step_exec now sd r w m o e q Hw Hm Hs Eq Ho Hpos)
        as (w' & H1 & H2 & H3 & H4 & H5 & _).
      exists w'. repeat split; assumption.
  - vm_compute. repeat split; reflexivity.
Qed.

Lemma market_execution_witness :
  (add_order_api 2 BUY 0 15 MARKET "m" scen_c3).1 = (true, Some 2%nat) /\
  (qty_of (add_order_api 2 BUY 0 15 MARKET "m" scen_c3).2.2 2 = 0%Z \/
   opp_queue BUY (add_order_api 2 BUY 0 15 MARKET "m" scen_c3).2.1 = []).
Proof.
  destruct (proj1 market_execution 2%Z BUY 0%Q 15%Z "m" scen_c3
              ltac:(eexists; reflexivity) ltac:(lia) ltac:(vm_compute; discriminate))
    as (H1 & _ & _ & _ & H5).
  split; [exact H1|exact H5].
Defined.

(** * Rejected market orders *)

(** [C4] (as stated) A rejected market submission leaves the engine state
    entirely unchanged: false.  From the empty book, MARKET BUY 5 is
    rejected, yet the id counter has advanced. *)
Lemma rejected_market_changes_state :
  (add_order_api 1 BUY 0 5 MARKET "m" init_world).1 = (false, None) /\
  (add_order_api 1 BUY 0 5 MARKET "m" init_world).2.1 <> init_world.1.
Proof.
  split; [reflexivity|]. intros H. apply (f_equal next_order_id) in H. discriminate.
Qed.

(** [C4] (amended) A market order submitted when the opposite side has no
    resting order returns [(false, None)]; bids, asks, the index, the trade
    log, the last trade price and every existing order object are
    unchanged (nothing executes); the only change is that the id counter
    advances by one (the id is consumed by [add_order_api] before the order
    is handled). *)
Theorem rejected_market_order (now : Z) (sd : Side) (pr : Q) (q : Z) (p : string) (w : World) :
  opp_queue sd w.1 = [] ->
  (add_order_api now sd pr q MARKET p w).1 = (false, None) /\
  bids (add_order_api now sd pr q MARKET p w).2.1 = bids w.1 /\
  asks (add_order_api now sd pr q MARKET p w).2.1 = asks w.1 /\
  order_map (add_order_api now sd pr q MARKET p w).2.1 = order_map w.1 /\
  trades (add_order_api now sd pr q MARKET p w).2.1 = trades w.1 /\
  last_trade_price (add_order_api now sd pr q MARKET p w).2.1 = last_trade_price w.1 /\
  next_order_id (add_order_api now sd pr q MARKET p w).2.1 = S (next_order_id w.1) /\
  (forall r, r <> next_order_id w.1 ->
     (add_order_api now sd pr q MARKET p w).2.2 !! r = w.2 !! r).
Proof.
  destruct w as [b objs]. cbn [fst snd]. intros E.
  rewrite add_order_api_market. cbv zeta. rewrite E. cbn [fst snd].
  repeat split. intros r Hr. now rewrite lookup_insert_ne by congruence.
Qed.

Lemma rejected_market_order_witness :
  (add_order_api 1 BUY 0 5 MARKET "m" init_world).1 = (false, None) /\
  next_order_id (add_order_api 1 BUY 0 5 MARKET "m" init_world).2.1 = 2%nat.
Proof.
  destruct (rejected_market_order 1%Z BUY 0%Q 5%Z "m" init_world ltac:(reflexivity))
    as (H1 & _ & _ & _ & _ & _ & H7 & _).
  split; [exact H1|exact H7].
Defined.

(** * Filled orders and the index *)

(** LIMIT BUY 100 x 5 (id 1) then LIMIT SELL 100 x 5 (id 2): both fill
    completely. *)
Definition scen_filled : World :=
  run init_world [Submit 1 BUY 100 5 LIMIT "a"; Submit 2 SELL 100 5 LIMIT "b"].

(** [C5] The index is not cleaned up when an order fills: after both orders
    of [scen_filled] are completely filled and left the queues, cancelling
    the filled order 1 returns [true] and deletes it from the index. *)
Theorem cancel_filled_order_returns_true :
  bids scen_filled.1 = [] /\ asks scen_filled.1 = [] /\
  qty_of scen_filled.2 1 = 0%Z /\
  (cancel_order 1 scen_filled).1 = true /\
  order_map scen_filled.1 !! 1%nat = Some 1%nat /\
  order_map (cancel_order 1 scen_filled).2.1 !! 1%nat = None.
Proof. vm_compute. repeat split; reflexivity. Qed.

(** [C6] Index and queues disagree: in [scen_filled] the index still holds
    both fully filled orders while neither queue holds any entry. *)
Theorem filled_orders_stay_indexed :
  order_map scen_filled.1 !! 1%nat = Some 1%nat /\
  order_map scen_filled.1 !! 2%nat = Some 2%nat /\
  qty_of scen_filled.2 1 = 0%Z /\ qty_of scen_filled.2 2 = 0%Z /\
  bids scen_filled.1 = [] /\ asks scen_filled.1 = [].
Proof. vm_compute. repeat split; reflexivity. Qed.

(** * [get_order_book] does not aggregate *)

Definition scen_two_bids : World :=
  run init_world [Submit 1 BUY 100 5 LIMIT "a"; Submit 2 BUY 100 3 LIMIT "b"].

(** [C7] (as stated) One entry per price level: false.  Two bids at price
    100 give two rows at price 100. *)
Lemma get_book_not_aggregated :
  get_order_book scen_two_bids = ([(100%Q, 5%Z); (100%Q, 3%Z)], []).
Proof. vm_compute. reflexivity. Qed.

Lemma row_lt_asym (x y : Q * Z) : row_lt x y = true -> row_lt y x = false.
Proof.
  unfold row_lt, Qltb. destruct x as [a i], y as [c j]. simpl.
  intros H. apply orb_true_iff in H as [H|H].
  - apply negb_true_iff in H.
    assert (Hlt : (a < c)%Q) by (apply Qnot_le_lt; intros Hle; apply Qle_bool_iff in Hle; congruence).
    apply orb_false_iff. split.
    + apply negb_false_iff, Qle_bool_iff. now apply Qlt_le_weak.
    + apply andb_false_iff. left. apply not_true_iff_false. intros E.
      apply Qeq_bool_iff in E. rewrite E in Hlt. now apply Qlt_irrefl in Hlt.
  - apply andb_true_iff in H as [H1 H2]. apply Qeq_bool_iff in H1. apply Z.ltb_lt in H2.
    apply orb_false_iff. split.
    + apply negb_false_iff, Qle_bool_iff. rewrite H1. apply Qle_refl.
    + apply andb_false_iff. right. apply Z.ltb_ge. lia.
Qed.

Lemma row_lt_false_le (x y : Q * Z) : row_lt x y = false -> (fst y <= fst x)%Q.
Proof.
  unfold row_lt, Qltb. intros H. apply orb_false_iff in H as [H _].
  apply negb_false_iff in H. now apply Qle_bool_iff.
Qed.

Definition row_ge (x y : Q * Z) : Prop := row_lt x y = false.
Definition row_le (x y : Q * Z) : Prop := row_lt y x = false.

Lemma insert_desc_sorted (x : Q * Z) (l : list (Q * Z)) :
  Sorted row_ge l -> Sorted row_ge (insert_desc x l).
Proof.
  induction l as [|y r IH]; simpl; intros Hs; [repeat constructor|].
  destruct (row_lt y x) eqn:E.
  - constructor; [exact Hs|]. constructor. unfold row_ge. now apply row_lt_asym.
  - apply Sorted_inv in Hs as [Hr Hh]. constructor; [now apply IH|].
    destruct r as [|z r']; simpl; [now constructor|].
    destruct (row_lt z x); constructor; [exact E|]. now inversion Hh.
Qed.

Lemma insert_asc_sorted (x : Q * Z) (l : list (Q * Z)) :
  Sorted row_le l -> Sorted row_le (insert_asc x l).
Proof.
  induction l as [|y r IH]; simpl; intros Hs; [repeat constructor|].
  destruct (row_lt x y) eqn:E.
  - constructor; [exact Hs|]. constructor. unfold row_le. now apply row_lt_asym.
  - apply Sorted_inv in Hs as [Hr Hh]. constructor; [now apply IH|].
    destruct r as [|z r']; simpl; [now constructor|].
    destruct (row_lt x z); constructor; [exact E|]. now inversion Hh.
Qed.

Lemma insert_desc_perm (x : Q * Z) (l : list (Q * Z)) : Permutation (insert_desc x l) (x :: l).
Proof.
  induction l as [|y r IH]; simpl; [reflexivity|].
  destruct (row_lt y x); [reflexivity|]. rewrite IH. apply perm_swap.
Qed.

Lemma insert_asc_perm (x : Q * Z) (l : list (Q * Z)) : Permutation (insert_asc x l) (x :: l).
Proof.
  induction l as [|y r IH]; simpl; [reflexivity|].
  destruct (row_lt x y); [reflexivity|]. rewrite IH. apply perm_swap.
Qed.

Lemma sorted_desc_spec (l : list (Q * Z)) :
  Permutation (sorted_desc l) l /\ Sorted row_ge (sorted_desc l).
Proof.
  unfold sorted_desc.
  enough (G : forall acc, Sorted row_ge acc ->
            Permutation (fold_left (fun acc x => insert_desc x acc) l acc) (l ++ acc) /\
            Sorted row_ge (fold_left (fun acc x => insert_desc x acc) l acc)).
  { destruct (G [] ltac:(constructor)) as [H1 H2]. rewrite app_nil_r in H1. auto. }
  induction l as [|x r IH]; intros acc Hacc; simpl; [auto|].
  destruct (IH (insert_desc x acc) (insert_desc_sorted x acc Hacc)) as [H1 H2].
  split; [|exact H2]. rewrite H1, insert_desc_perm. apply Permutation_sym, Permutation_middle.
Qed.

Lemma sorted_asc_spec (l : list (Q * Z)) :
  Permutation (sorted_asc l) l /\ Sorted row_le (sorted_asc l).
Proof.
  unfold sorted_asc.
  enough (G : forall acc, Sorted row_le acc ->
            Permutation (fold_left (fun acc x => insert_asc x acc) l acc) (l ++ acc) /\
            Sorted row_le (fold_left (fun acc x => insert_asc x acc) l acc)).
  { destruct (G [] ltac:(constructor)) as [H1 H2]. rewrite app_nil_r in H1. auto. }
  induction l as [|x r IH]; intros acc Hacc; simpl; [auto|].
  destruct (IH (insert_asc x acc) (insert_asc_sorted x acc Hacc)) as [H1 H2].
  split; [|exact H2]. rewrite H1, insert_asc_perm. apply Permutation_sym, Permutation_middle.
Qed.

(** * Full effect of one loop iteration on the objects and the trade log *)

Lemma match_step_full (now : Z) (w w' : World) :
  match_step now w = Some w' ->
  exists eb rb ea ra ob oa,
    bids w.1 = eb :: rb /\ asks w.1 = ea :: ra /\
    w.2 !! eref eb = Some ob /\ w.2 !! eref ea = Some oa /\ (price oa <= price ob)%Q /\
    w'.2 = dec_quantity (eref ea) (Z.min (quantity ob) (quantity oa))
             (dec_quantity (eref eb) (Z.min (quantity ob) (quantity oa)) w.2) /\
    trades w'.1 = trades w.1 ++
      [mkTrade now (price oa) (Z.min (quantity ob) (quantity oa))
         (if Z.ltb (timestamp oa) (timestamp ob) then BUY else SELL)] /\
    last_trade_price w'.1 = price oa.
Proof.
  destruct w as [b objs]. unfold match_step. simpl.
  destruct (bids b) as [|eb rb] eqn:Eb; [discriminate|].
  destruct (asks b) as [|ea ra] eqn:Ea; [discriminate|].
  destruct (objs !! eref eb) as [ob|] eqn:Hob; [|discriminate].
  destruct (objs !! eref ea) as [oa|] eqn:Hoa; [|discriminate].
  destruct (Qle_bool (price oa) (price ob)) eqn:Hle; [|discriminate].
  intros H. injection H as <-. apply Qle_bool_iff in Hle.
  exists eb, rb, ea, ra, ob, oa. repeat split; try assumption;
    destruct (Z.eqb _ 0); destruct (Z.eqb _ 0); reflexivity.
Qed.

Lemma market_step_full (now : Z) (sd : Side) (r : Ref) (w w' : World) :
  market_step now sd r w = Some w' ->
  exists m e q o,
    w.2 !! r = Some m /\ opp_queue sd w.1 = e :: q /\ w.2 !! eref e = Some o /\
    (0 < quantity m)%Z /\
    w'.2 = dec_quantity r (Z.min (quantity m) (quantity o))
             (dec_quantity (eref e) (Z.min (quantity m) (quantity o)) w.2) /\
    trades w'.1 = trades w.1 ++ [mkTrade now (price o) (Z.min (quantity m) (quantity o)) sd] /\
    last_trade_price w'.1 = price o.
Proof.
  destruct w as [b objs]. unfold market_step. simpl.
  destruct (objs !! r) as [m|] eqn:Hm; [|discriminate].
  destruct (opp_queue sd b) as [|e q] eqn:Eq; [discriminate|].
  destruct (Z.ltb 0 (quantity m)) eqn:Hp; [|discriminate].
  destruct (objs !! eref e) as [o|] eqn:Ho; [|discriminate].
  intros H. injection H as <-. apply Z.ltb_lt in Hp.
  exists m, e, q, o. repeat split; try assumption;
    destruct (Z.eqb _ 0); destruct sd; reflexivity.
Qed.

(** * Resting quantities stay positive *)

Definition queue_pos (objs : Heap) (q : list Entry) : Prop :=
  Forall (fun e => (0 < qty_of objs (eref e))%Z) q /\ NoDup (map eref q).

Definition pos_inv (w : World) : Prop := queue_pos w.2 (bids w.1) /\ queue_pos w.2 (asks w.1).

Lemma queue_pos_frame (objs objs' : Heap) (q : list Entry) :
  (forall e, In e q -> objs' !! eref e = objs !! eref e) ->
  queue_pos objs q -> queue_pos objs' q.
Proof.
  intros Hf [H1 H2]. split; [|exact H2].
  rewrite List.Forall_forall in H1 |- *. intros e He. unfold qty_of. rewrite Hf by exact He.
  now apply H1.
Qed.

Lemma queue_pos_tl (objs : Heap) (q : list Entry) : queue_pos objs q -> queue_pos objs (tl q).
Proof.
  destruct q as [|e r]; [auto|]. intros [H1 H2]. simpl in H2.
  split; [now inversion H1|]. now inversion H2.
Qed.

Lemma lookup_dec_dec_ne (objs : Heap) (r1 r2 j : Ref) (d : Z) :
  j <> r1 -> j <> r2 -> dec_quantity r2 d (dec_quantity r1 d objs) !! j = objs !! j.
Proof. intros H1 H2. rewrite !lookup_dec_ne by congruence. reflexivity. Qed.

(** An entry of [e :: q] (no duplicate reference) other than the head has
    a different reference; an entry of a queue of the other side too. *)
Lemma ref_ne_head (e x : Entry) (q : list Entry) :
  NoDup (map eref (e :: q)) -> In x q -> eref x <> eref e.
Proof.
  simpl. intros H Hx E. inversion H as [|? ? Hn _]. apply Hn.
  rewrite <- E. apply list_elem_of_In. now apply List.in_map.
Qed.

Lemma ref_ne_side (sd : Side) (objs : Heap) (x : Entry) (j : Ref) (o : Order) :
  entry_ok sd objs x -> objs !! j = Some o -> side o <> sd -> eref x <> j.
Proof. intros (o' & Ho' & Hs & _) Hy Hne E. rewrite E, Hy in Ho'. congruence. Qed.

Lemma entry_ok_side (sd : Side) (objs : Heap) (e : Entry) (o : Order) :
  entry_ok sd objs e -> objs !! eref e = Some o -> side o = sd.
Proof. intros (o' & Ho' & Hs & _) Ho. rewrite Ho in Ho'. congruence. Qed.

Lemma queue_pos_untouched (objs objs' : Heap) (q : list Entry) (r1 r2 : Ref) :
  (forall j, j <> r1 -> j <> r2 -> objs' !! j = objs !! j) ->
  (forall x, In x q -> eref x <> r1 /\ eref x <> r2) ->
  queue_pos objs q -> queue_pos objs' q.
Proof.
  intros Hf Hx. apply queue_pos_frame. intros e He. destruct (Hx e He). now apply Hf.
Qed.

(** After an iteration decremented the head [e] of a queue (and one object
    [r2] not in its tail), the queue with the head popped when it reached
    zero still holds positive quantities only. *)
Lemma queue_pos_after (objs objs' : Heap) (e : Entry) (q : list Entry) (r2 : Ref) (newq : Z) :
  (forall j, j <> eref e -> j <> r2 -> objs' !! j = objs !! j) ->
  (forall x, In x q -> eref x <> r2) ->
  qty_of objs' (eref e) = newq -> (0 <= newq)%Z ->
  queue_pos objs (e :: q) -> queue_pos objs' (if Z.eqb newq 0 then q else e :: q).
Proof.
  intros Hf Hx Hq Hn Hp.
  assert (Ht : queue_pos objs' q).
  { apply (queue_pos_untouched objs objs' q (eref e) r2 Hf).
    - intros x Hin. split; [|now apply Hx]. eapply ref_ne_head; [apply Hp|exact Hin].
    - exact (queue_pos_tl _ _ Hp). }
  destruct (Z.eqb newq 0) eqn:E; [exact Ht|]. apply Z.eqb_neq in E.
  destruct Ht as [Ht1 _]. split; [constructor; [lia|exact Ht1]|apply Hp].
Qed.

Lemma pos_match_step (now : Z) (w w' : World) :
  wf w -> pos_inv w -> match_step now w = Some w' -> pos_inv w'.
Proof.
  intros Hw [Pb Pa] H.
  destruct (match_step_full now w w' H)
    as (eb & rb & ea & ra & ob & oa & Eb & Ea & Hob & Hoa & Hle & Hobj & _).
  destruct (match_step_exec now w eb ea rb ra ob oa Hw Eb Ea Hob Hoa Hle)
    as (w'' & H' & _ & Qb & Qa & Eb' & Ea').
  rewrite H in H'. injection H' as <-.
  pose proof (wf_bids _ Hw) as HB. pose proof (wf_asks _ Hw) as HA.
  rewrite Eb in HB, Pb. rewrite Ea in HA, Pa.
  pose proof (entry_ok_side _ _ _ _ (entry_ok_head _ _ _ _ HA) Hoa) as Sa.
  pose proof (entry_ok_side _ _ _ _ (entry_ok_head _ _ _ _ HB) Hob) as Sb.
  rewrite List.Forall_forall in HB, HA.
  assert (Hf : forall j, j <> eref eb -> j <> eref ea -> w'.2 !! j = w.2 !! j)
    by (intros j H1 H2; rewrite Hobj; now apply lookup_dec_dec_ne).
  split; [rewrite Eb'|rewrite Ea'].
  - apply (queue_pos_after w.2 w'.2 eb rb (eref ea)); auto; [|lia].
    intros x Hx. eapply ref_ne_side; [apply HB; right; exact Hx|exact Hoa|congruence].
  - apply (queue_pos_after w.2 w'.2 ea ra (eref eb)); auto; [|lia].
    intros x Hx. eapply ref_ne_side; [apply HA; right; exact Hx|exact Hob|congruence].
Qed.

Lemma pos_match_loop (fuel : nat) (now : Z) (w : World) :
  wf w -> pos_inv w -> pos_inv (match_loop fuel now w).
Proof.
  revert w. induction fuel as [|f IH]; intros w Hw Hp; simpl; [exact Hp|].
  destruct (match_step now w) as [w'|] eqn:E; [|exact Hp].
  apply IH; [eapply wf_match_step; eauto|eapply pos_match_step; eauto].
Qed.

Lemma pos_inv_opp (sd : Side) (w : World) :
  pos_inv w <-> queue_pos w.2 (opp_queue sd w.1) /\ queue_pos w.2 (opp_queue (other sd) w.1).
Proof. destruct sd; unfold pos_inv; simpl; tauto. Qed.

(** The market order's own object is not in the queue of its own side. *)
Definition mkt_fresh (sd : Side) (r : Ref) (w : World) : Prop :=
  forall x, In x (opp_queue (other sd) w.1) -> eref x <> r.

Lemma pos_market_step (now : Z) (sd : Side) (r : Ref) (w w' : World) :
  wf w -> mkt_ok sd r w -> mkt_fresh sd r w -> pos_inv w ->
  market_step now sd r w = Some w' -> pos_inv w'.
Proof.
  intros Hw (m0 & Hm0 & Hs0 & _) Hfr Hp H.
  destruct (market_step_full now sd r w w' H) as (m & e & q & o & Hm & Eq & Ho & Hpos & Hobj & _).
  rewrite Hm in Hm0. injection Hm0 as <-.
  destruct (market_step_exec now sd r w m o e q Hw Hm Hs0 Eq Ho Hpos)
    as (w'' & H' & _ & Qo & _ & Eq' & Eo' & _).
  rewrite H in H'. injection H' as <-.
  apply (pos_inv_opp sd) in Hp as [Po Pw]. apply (pos_inv_opp sd).
  pose proof (wf_opp sd w Hw) as HO. pose proof (wf_opp (other sd) w Hw) as HW.
  rewrite Eq in HO, Po.
  pose proof (entry_ok_side _ _ _ _ (entry_ok_head _ _ _ _ HO) Ho) as So.
  rewrite List.Forall_forall in HO, HW.
  assert (Hf : forall j, j <> eref e -> j <> r -> w'.2 !! j = w.2 !! j)
    by (intros j H1 H2; rewrite Hobj; now apply lookup_dec_dec_ne).
  rewrite Eq', Eo'. split.
  - apply (queue_pos_after w.2 w'.2 e q r); auto; [|lia].
    intros x Hx. eapply ref_ne_side; [apply HO; right; exact Hx|exact Hm|].
    destruct sd; simpl; congruence.
  - apply (queue_pos_untouched w.2 w'.2 _ (eref e) r Hf); [|exact Pw].
    intros x Hx. split; [|now apply Hfr].
    assert (Sw : other (other sd) = sd) by (now destruct sd).
    eapply ref_ne_side; [apply HW; exact Hx|exact Ho|]. rewrite So. destruct sd; discriminate.
Qed.

Lemma pos_market_loop (fuel : nat) (now : Z) (sd : Side) (r : Ref) (w : World) :
  wf w -> mkt_ok sd r w -> mkt_fresh sd r w -> pos_inv w ->
  pos_inv (market_loop fuel now sd r w).
Proof.
  revert w. induction fuel as [|f IH]; intros w Hw Hm Hfr Hp; simpl; [exact Hp|].
  destruct (market_step now sd r w) as [w'|] eqn:E; [|exact Hp].
  pose proof (market_step_progress _ _ _ _ _ Hw Hm E) as [Hm' _].
  pose proof (pos_market_step _ _ _ _ _ Hw Hm Hfr Hp E) as Hp'.
  pose proof (market_step_shape _ _ _ _ _ E) as (_ & Ho & _).
  apply IH; [eapply wf_market_step; eauto|exact Hm'| |exact Hp'].
  intros x Hx. apply Hfr. unfold other in *. now rewrite <- Ho.
Qed.

Lemma queue_refs_lt (sd : Side) (objs : Heap) (q : list Entry) (n : nat) :
  Forall (entry_ok sd objs) q -> (forall r o, objs !! r = Some o -> (r < n)%nat) ->
  forall x, In x q -> (eref x < n)%nat.
Proof.
  intros Hq Hf x Hx. rewrite List.Forall_forall in Hq.
  destruct (Hq x Hx) as (o & Ho & _). exact (Hf _ _ Ho).
Qed.

Lemma pos_alloc (b : OrderBook) (objs : Heap) (o : Order) :
  wf (b, objs) -> pos_inv (b, objs) ->
  pos_inv (set_next_order_id b (S (next_order_id b)), <[next_order_id b := o]> objs).
Proof.
  intros [HB HA _ _ Hf] [Pb Pa]. simpl in *.
  assert (K : forall sd q, Forall (entry_ok sd objs) q -> queue_pos objs q ->
                queue_pos (<[next_order_id b := o]> objs) q).
  { intros sd q Hq. apply queue_pos_frame. intros e He.
    apply lookup_insert_ne. pose proof (queue_refs_lt sd objs q _ Hq Hf e He). lia. }
  split; simpl; [exact (K _ _ HB Pb)|exact (K _ _ HA Pa)].
Qed.

Lemma queue_pos_push (objs : Heap) (q : list Entry) (e : Entry) :
  queue_pos objs q -> (0 < qty_of objs (eref e))%Z -> (forall x, In x q -> eref x <> eref e) ->
  queue_pos objs (heappush q e).
Proof.
  intros [H1 H2] Hp Hn. pose proof (heappush_perm q e) as P. split.
  - apply (Permutation_Forall (Permutation_sym P)). now constructor.
  - rewrite (Permutation_map eref P). simpl. apply NoDup_cons. split; [|exact H2].
    intros Hin. apply list_elem_of_In, in_map_iff in Hin as (x & Ex & Hx).
    exact (Hn x Hx Ex).
Qed.

Lemma pos_add_order_api (now : Z) (sd : Side) (pr : Q) (q : Z) (ot : OrderType)
    (p : string) (w : World) :
  wf w -> pos_inv w -> (0 < q)%Z -> pos_inv (add_order_api now sd pr q ot p w).2.
Proof.
  intros Hw Hp Hq. destruct w as [b objs].
  set (n := next_order_id b). set (o := mkOrder n sd pr q ot now p).
  pose proof (wf_alloc b objs o Hw) as Hw1. pose proof (pos_alloc b objs o Hw Hp) as Hp1.
  pose proof (wf_fresh _ Hw) as Hf. simpl in Hf.
  destruct ot.
  - rewrite add_order_api_market. cbv zeta. fold n.
    destruct (opp_queue sd b) as [|e l] eqn:Eq; [exact Hp1|]. cbn [snd].
    apply pos_market_loop; [exact Hw1| | |exact Hp1].
    + eexists. split; [apply lookup_insert_eq|]. simpl. split; [reflexivity|lia].
    + intros x Hx. simpl in Hx. rewrite opp_queue_set_next in Hx.
      assert (HQ : Forall (entry_ok (other (other sd)) objs) (opp_queue (other sd) b))
        by (destruct Hw as [HB HA _ _ _]; destruct sd; assumption).
      pose proof (queue_refs_lt _ _ _ _ HQ Hf x Hx). fold n in H. lia.
  - rewrite add_order_api_world. unfold add_order. cbn [fst snd].
    rewrite lookup_insert_eq. cbn [order_type side price timestamp order_id].
    destruct Hp1 as [Pb Pa]. simpl in Pb, Pa.
    destruct Hw as [HB HA _ _ _]. simpl in HB, HA.
    assert (Hq1 : (0 < qty_of (<[n := o]> objs) n)%Z)
      by (unfold qty_of; rewrite lookup_insert_eq; exact Hq).
    destruct sd; cbn [snd]; unfold match_orders; apply pos_match_loop.
    + apply wf_set_order_map, wf_push_bid; [exact Hw1|].
      eexists. split; [apply lookup_insert_eq|]. simpl. repeat split.
    + split; simpl; [|exact Pa]. apply queue_pos_push; [exact Pb|exact Hq1|].
      intros x Hx. pose proof (queue_refs_lt _ _ _ _ HB Hf x Hx). simpl. unfold n. lia.
    + apply wf_set_order_map, wf_push_ask; [exact Hw1|].
      eexists. split; [apply lookup_insert_eq|]. simpl. repeat split.
    + split; simpl; [exact Pb|]. apply queue_pos_push; [exact Pa|exact Hq1|].
      intros x Hx. pose proof (queue_refs_lt _ _ _ _ HA Hf x Hx). simpl. unfold n. lia.
Qed.

Lemma NoDup_map_filter (f : Entry -> bool) (l : list Entry) :
  NoDup (map eref l) -> NoDup (map eref (List.filter f l)).
Proof.
  induction l as [|x r IH]; simpl; [auto|]. intros H. apply NoDup_cons in H as [Hn H].
  destruct (f x); simpl; [|now apply IH]. apply NoDup_cons. split; [|now apply IH].
  intros Hin. apply Hn. apply list_elem_of_In in Hin. apply list_elem_of_In.
  apply in_map_iff in Hin as (y & Ey & Hy). apply filter_In in Hy as [Hy _].
  rewrite <- Ey. now apply List.in_map.
Qed.

Lemma queue_pos_heapify_filter (objs : Heap) (f : Entry -> bool) (q : list Entry) :
  queue_pos objs q -> queue_pos objs (heapify (List.filter f q)).
Proof.
  intros [H1 H2]. split; [now apply Forall_heapify_filter|].
  rewrite (Permutation_map eref (heapify_perm _)). now apply NoDup_map_filter.
Qed.

Lemma pos_cancel (oid : nat) (w : World) : pos_inv w -> pos_inv (cancel_order oid w).2.
Proof.
  intros [Pb Pa]. destruct w as [b objs]. unfold cancel_order. simpl in *.
  destruct (order_map b !! oid) as [r|]; [|split; auto].
  destruct (objs !! r) as [o|]; [destruct (side o)|]; split; simpl;
    auto using queue_pos_heapify_filter.
Qed.

(** Submissions with a positive quantity. *)
Definition pos_op (op : Op) : Prop :=
  match op with Submit _ _ _ q _ _ => (0 < q)%Z | Cancel _ => True end.

Lemma pos_run (ops : list Op) (w : World) :
  Forall pos_op ops -> inv w -> pos_inv w -> pos_inv (run w ops).
Proof.
  revert w. induction ops as [|op r IH]; intros w Hops Hi Hp; simpl; [exact Hp|].
  inversion Hops as [|? ? Hop Hr]; subst. apply IH; [exact Hr|now apply inv_step|].
  destruct op; simpl in *.
  - now apply pos_add_order_api; [apply Hi| |].
  - now apply pos_cancel.
Qed.

Lemma pos_init : pos_inv init_world.
Proof. split; split; constructor. Qed.

(** * The rows of [get_order_book] *)

Lemma Qopp_opp (x : Q) : (- - x)%Q = x.
Proof. destruct x as [n d]. unfold Qopp. simpl. now rewrite Z.opp_involutive. Qed.

(** The row [(price, remaining quantity)] of an order. *)
Definition row_of (o : Order) : Q * Z := (price o, quantity o).

Lemma bid_rows (objs : Heap) (q : list Entry) :
  Forall (entry_ok BUY objs) q ->
  map (fun e => ((- ekey e)%Q, qty_of objs (eref e))) q = map row_of (resting objs q).
Proof.
  induction q as [|e r IH]; simpl; intros H; [reflexivity|].
  inversion H as [|? ? He Hr]; subst. destruct He as (o & Ho & _ & _ & _ & Hk & _).
  rewrite Ho. simpl. rewrite <- IH by exact Hr. unfold qty_of, row_of. rewrite Ho, Hk.
  simpl. now rewrite Qopp_opp.
Qed.

Lemma ask_rows (objs : Heap) (q : list Entry) :
  Forall (entry_ok SELL objs) q ->
  map (fun e => (ekey e, qty_of objs (eref e))) q = map row_of (resting objs q).
Proof.
  induction q as [|e r IH]; simpl; intros H; [reflexivity|].
  inversion H as [|? ? He Hr]; subst. destruct He as (o & Ho & _ & _ & _ & Hk & _).
  rewrite Ho. simpl. rewrite <- IH by exact Hr. unfold qty_of, row_of. now rewrite Ho, Hk.
Qed.

Lemma Sorted_weaken {A} (R R' : A -> A -> Prop) (l : list A) :
  (forall x y, R x y -> R' x y) -> Sorted R l -> Sorted R' l.
Proof.
  intros HR. induction 1 as [|x r Hs IH Hh]; constructor; [exact IH|].
  destruct Hh; constructor. now apply HR.
Qed.

Lemma rows_positive (objs : Heap) (q : list Entry) (sgn : Q -> Q) :
  queue_pos objs q ->
  forall row, In row (map (fun e => (sgn (ekey e), qty_of objs (eref e))) q) -> (0 < snd row)%Z.
Proof.
  intros [H _] row Hin. apply in_map_iff in Hin as (e & <- & He).
  rewrite List.Forall_forall in H. exact (H e He).
Qed.

(** [C7] (amended) [get_order_book] returns one [(price, remaining
    quantity)] row per resting order, not one row per price level.
    (1) In a well-formed state the bid rows are a permutation of the
    resting bids' rows, sorted in descending tuple order (so by descending
    price); the ask rows are a permutation of the resting asks' rows,
    sorted in ascending tuple order (so by ascending price).  (2) In every
    state reached from the empty book by cancellations and submissions of
    positive quantity, every row has a positive quantity.  (3) Two bids
    of 5 and 3 at price 100 give the two rows (100, 5) and (100, 3). *)
Theorem get_order_book_rows :
  (forall w, wf w ->
     Permutation (get_order_book w).1 (map row_of (resting w.2 (bids w.1))) /\
     Sorted row_ge (get_order_book w).1 /\
     Sorted (fun x y => (fst y <= fst x)%Q) (get_order_book w).1 /\
     Permutation (get_order_book w).2 (map row_of (resting w.2 (asks w.1))) /\
     Sorted row_le (get_order_book w).2 /\
     Sorted (fun x y => (fst x <= fst y)%Q) (get_order_book w).2) /\
  (forall ops, Forall pos_op ops -> forall row,
     In row (get_order_book (run init_world ops)).1 \/
     In row (get_order_book (run init_world ops)).2 -> (0 < snd row)%Z) /\
  get_order_book scen_two_bids = ([(100%Q, 5%Z); (100%Q, 3%Z)], []).
Proof.
  split; [|split].
  - intros w Hw. pose proof (wf_bids _ Hw) as HB. pose proof (wf_asks _ Hw) as HA.
    destruct w as [b objs]. unfold get_order_book. simpl in *.
    rewrite (bid_rows objs _ HB), (ask_rows objs _ HA).
    destruct (sorted_desc_spec (map row_of (resting objs (bids b)))) as [P1 S1].
    destruct (sorted_asc_spec (map row_of (resting objs (asks b)))) as [P2 S2].
    repeat split; try assumption.
    + eapply Sorted_weaken; [|exact S1]. intros x y H. now apply row_lt_false_le.
    + eapply Sorted_weaken; [|exact S2]. intros x y H. now apply row_lt_false_le.
  - intros ops Hops row Hrow.
    pose proof (pos_run ops init_world Hops inv_init pos_init) as [Pb Pa].
    destruct (run init_world ops) as [b objs]. unfold get_order_book in *. simpl in *.
    destruct Hrow as [Hr|Hr].
    + apply (Permutation_in _ (proj1 (sorted_desc_spec _))) in Hr.
      exact (rows_positive objs _ Qopp Pb row Hr).
    + apply (Permutation_in _ (proj1 (sorted_asc_spec _))) in Hr.
      exact (rows_positive objs _ (fun x => x) Pa row Hr).
  - vm_compute. reflexivity.
Qed.

Lemma get_order_book_rows_witness :
  wf scen_two_bids /\ Forall pos_op [Submit 1 BUY 100 5 LIMIT "a"; Submit 2 BUY 100 3 LIMIT "b"] /\
  Permutation (get_order_book scen_two_bids).1 (map row_of (resting scen_two_bids.2 (bids scen_two_bids.1))) /\
  (forall row, In row (get_order_book scen_two_bids).1 \/ In row (get_order_book scen_two_bids).2 ->
     (0 < snd row)%Z).
Proof.
  assert (Hw : wf scen_two_bids) by (apply reachable_inv; eexists; reflexivity).
  assert (Hops : Forall pos_op [Submit 1 BUY 100 5 LIMIT "a"; Submit 2 BUY 100 3 LIMIT "b"])
    by (repeat constructor; simpl; lia).
  split; [exact Hw|]. split; [exact Hops|]. split.
  - exact (proj1 (proj1 get_order_book_rows scen_two_bids Hw)).
  - exact (proj1 (proj2 get_order_book_rows) _ Hops).
Defined.

(** * [last_trade_price] follows the trade log *)

(** The last trade price is the price of the last recorded trade, or the
    initial 100 when no trade was recorded. *)
Definition lp_ok (b : OrderBook) : Prop :=
  last_trade_price b = List.last (map trade_price (trades b)) 100%Q.

Lemma lp_record (b b' : OrderBook) (t : Trade) :
  lp_ok b -> trades b' = trades b ++ [t] -> last_trade_price b' = trade_price t -> lp_ok b'.
Proof. intros _ Ht Hl. unfold lp_ok. rewrite Ht, Hl, map_app. simpl. now rewrite last_last. Qed.

Lemma match_step_trade (now : Z) (w w' : World) :
  match_step now w = Some w' ->
  exists t, trades w'.1 = trades w.1 ++ [t] /\ last_trade_price w'.1 = trade_price t.
Proof.
  intros H. destruct (match_step_full now w w' H) as (eb & rb & ea & ra & ob & oa & _ & _ & _ & _ & _ & _ & Ht & Hl).
  eexists. split; [exact Ht|exact Hl].
Qed.

Lemma market_step_trade (now : Z) (sd : Side) (r : Ref) (w w' : World) :
  market_step now sd r w = Some w' ->
  exists t, trades w'.1 = trades w.1 ++ [t] /\ last_trade_price w'.1 = trade_price t.
Proof.
  intros H. destruct (market_step_full now sd r w w' H) as (m & e & q & o & _ & _ & _ & _ & _ & Ht & Hl).
  eexists. split; [exact Ht|exact Hl].
Qed.

Lemma lp_match_loop (fuel : nat) (now : Z) (w : World) :
  lp_ok w.1 -> lp_ok (match_loop fuel now w).1.
Proof.
  revert w. induction fuel as [|f IH]; intros w Hl; simpl; [exact Hl|].
  destruct (match_step now w) as [w'|] eqn:E; [|exact Hl].
  apply IH. destruct (match_step_trade _ _ _ E) as (t & Ht & Hp). eapply lp_record; eauto.
Qed.

Lemma lp_market_loop (fuel : nat) (now : Z) (sd : Side) (r : Ref) (w : World) :
  lp_ok w.1 -> lp_ok (market_loop fuel now sd r w).1.
Proof.
  revert w. induction fuel as [|f IH]; intros w Hl; simpl; [exact Hl|].
  destruct (market_step now sd r w) as [w'|] eqn:E; [|exact Hl].
  apply IH. destruct (market_step_trade _ _ _ _ _ E) as (t & Ht & Hp). eapply lp_record; eauto.
Qed.

Lemma lp_step (w : World) (op : Op) : lp_ok w.1 -> lp_ok (step w op).1.
Proof.
  intros Hl. destruct op as [now sd pr q ot p|oid]; simpl.
  - rewrite add_order_api_world. destruct w as [b objs]. unfold add_order. cbn [fst snd] in *.
    rewrite lookup_insert_eq. cbn [order_type side price timestamp order_id].
    destruct ot.
    + unfold handle_market_order. cbn [fst snd]. rewrite lookup_insert_eq. cbn [side].
      destruct (opp_queue sd _); [exact Hl|]. apply lp_market_loop. exact Hl.
    + destruct sd; apply lp_match_loop; exact Hl.
  - destruct w as [b objs]. unfold cancel_order. simpl.
    destruct (order_map b !! oid) as [r|]; [|exact Hl].
    destruct (objs !! r) as [o|]; [destruct (side o)|]; exact Hl.
Qed.

Lemma lp_run (ops : list Op) (w : World) : lp_ok w.1 -> lp_ok (run w ops).1.
Proof.
  revert w. induction ops as [|op r IH]; intros w Hl; simpl; [exact Hl|].
  apply IH, lp_step, Hl.
Qed.

Lemma reachable_lp (w : World) : reachable w -> lp_ok w.1.
Proof. intros [ops ->]. apply lp_run. reflexivity. Qed.

(** * [get_mid_price] *)

Lemma sorted_desc_head (l : list (Q * Z)) (pb : Q) (qb : Z) (rest : list (Q * Z)) :
  sorted_desc l = (pb, qb) :: rest -> In (pb, qb) l /\ forall x, In x l -> (fst x <= pb)%Q.
Proof.
  intros E. destruct (sorted_desc_spec l) as [P S]. rewrite E in P, S.
  split; [apply (Permutation_in _ P); left; reflexivity|].
  assert (SS : StronglySorted (fun x y => (fst y <= fst x)%Q) ((pb, qb) :: rest)).
  { apply Sorted_StronglySorted; [intros x y z H1 H2; eapply Qle_trans; eauto|].
    eapply Sorted_weaken; [|exact S]. intros x y H. now apply row_lt_false_le. }
  apply StronglySorted_inv in SS as [_ Hf]. rewrite List.Forall_forall in Hf.
  intros x Hx. apply (Permutation_in _ (Permutation_sym P)) in Hx as [<-|Hx].
  - apply Qle_refl.
  - exact (Hf x Hx).
Qed.

Lemma sorted_asc_head (l : list (Q * Z)) (pa : Q) (qa : Z) (rest : list (Q * Z)) :
  sorted_asc l = (pa, qa) :: rest -> In (pa, qa) l /\ forall x, In x l -> (pa <= fst x)%Q.
Proof.
  intros E. destruct (sorted_asc_spec l) as [P S]. rewrite E in P, S.
  split; [apply (Permutation_in _ P); left; reflexivity|].
  assert (SS : StronglySorted (fun x y => (fst x <= fst y)%Q) ((pa, qa) :: rest)).
  { apply Sorted_StronglySorted; [intros x y z H1 H2; eapply Qle_trans; eauto|].
    eapply Sorted_weaken; [|exact S]. intros x y H. now apply row_lt_false_le. }
  apply StronglySorted_inv in SS as [_ Hf]. rewrite List.Forall_forall in Hf.
  intros x Hx. apply (Permutation_in _ (Permutation_sym P)) in Hx as [<-|Hx].
  - apply Qle_refl.
  - exact (Hf x Hx).
Qed.

Lemma sorted_desc_nil (l : list (Q * Z)) : sorted_desc l = [] -> l = [].
Proof.
  intros E. destruct (sorted_desc_spec l) as [P _]. rewrite E in P.
  now apply Permutation_nil.
Qed.

Lemma sorted_asc_nil (l : list (Q * Z)) : sorted_asc l = [] -> l = [].
Proof.
  intros E. destruct (sorted_asc_spec l) as [P _]. rewrite E in P.
  now apply Permutation_nil.
Qed.

Lemma mid_both_sides (w : World) :
  wf w -> forall ob oa, In ob (resting w.2 (bids w.1)) -> In oa (resting w.2 (asks w.1)) ->
  (forall o, In o (resting w.2 (bids w.1)) -> (price o <= price ob)%Q) ->
  (forall o, In o (resting w.2 (asks w.1)) -> (price oa <= price o)%Q) ->
  (get_mid_price w == (price ob + price oa) / 2)%Q.
Proof.
  intros Hw ob oa Hob Hoa Hmaxb Hmina.
  pose proof (wf_bids _ Hw) as HB. pose proof (wf_asks _ Hw) as HA.
  destruct w as [b objs]. simpl in *. unfold get_mid_price, get_order_book.
  rewrite (bid_rows objs _ HB), (ask_rows objs _ HA).
  set (Lb := map row_of (resting objs (bids b))) in *.
  set (La := map row_of (resting objs (asks b))) in *.
  assert (Inb : In (row_of ob) Lb) by now apply List.in_map.
  assert (Ina : In (row_of oa) La) by now apply List.in_map.
  destruct (sorted_desc Lb) as [|[pb qb] rb] eqn:Eb.
  { apply sorted_desc_nil in Eb. rewrite Eb in Inb. destruct Inb. }
  destruct (sorted_asc La) as [|[pa qa] ra] eqn:Ea.
  { apply sorted_asc_nil in Ea. rewrite Ea in Ina. destruct Ina. }
  destruct (sorted_desc_head Lb pb qb rb Eb) as [Hinb Hb].
  destruct (sorted_asc_head La pa qa ra Ea) as [Hina Ha].
  assert (Eqb : (pb == price ob)%Q).
  { apply Qle_antisym; [|exact (Hb _ Inb)].
    apply in_map_iff in Hinb as (o & Eo & Ho). injection Eo as <- _. now apply Hmaxb. }
  assert (Eqa : (pa == price oa)%Q).
  { apply Qle_antisym; [exact (Ha _ Ina)|].
    apply in_map_iff in Hina as (o & Eo & Ho). injection Eo as <- _. now apply Hmina. }
  rewrite Eqb, Eqa. reflexivity.
Qed.

Lemma mid_one_side_empty (w : World) :
  wf w -> resting w.2 (bids w.1) = [] \/ resting w.2 (asks w.1) = [] ->
  get_mid_price w = last_trade_price w.1.
Proof.
  intros Hw He. pose proof (wf_bids _ Hw) as HB. pose proof (wf_asks _ Hw) as HA.
  destruct w as [b objs]. simpl in *. unfold get_mid_price, get_order_book.
  rewrite (bid_rows objs _ HB), (ask_rows objs _ HA).
  destruct He as [E|E]; rewrite E; simpl.
  - reflexivity.
  - destruct (sorted_desc _) as [|[pb qb] rb]; reflexivity.
Qed.

(** [C8] [get_mid_price].  In every reachable state: (1) when both sides
    have a resting order, the result equals [(best_bid + best_ask) / 2],
    [best_bid] being the highest resting bid price and [best_ask] the
    lowest resting ask price; (2) when a side has no resting order, the
    result is the price of the last recorded trade, or 100 when no trade
    was ever recorded; (3) the result depends only on the queues, the order
    objects and the trade log. *)
Theorem mid_price_spec :
  (forall w, reachable w ->
     forall ob oa, In ob (resting w.2 (bids w.1)) -> In oa (resting w.2 (asks w.1)) ->
     (forall o, In o (resting w.2 (bids w.1)) -> (price o <= price ob)%Q) ->
     (forall o, In o (resting w.2 (asks w.1)) -> (price oa <= price o)%Q) ->
     (get_mid_price w == (price ob + price oa) / 2)%Q) /\
  (forall w, reachable w ->
     resting w.2 (bids w.1) = [] \/ resting w.2 (asks w.1) = [] ->
     get_mid_price w = List.last (map trade_price (trades w.1)) 100%Q) /\
  (forall w w', reachable w -> reachable w' ->
     bids w.1 = bids w'.1 -> asks w.1 = asks w'.1 -> w.2 = w'.2 -> trades w.1 = trades w'.1 ->
     get_mid_price w = get_mid_price w').
Proof.
  split; [|split].
  - intros w Hr. apply mid_both_sides, (reachable_inv w Hr).
  - intros w Hr He. rewrite mid_one_side_empty; [|apply (reachable_inv w Hr)|exact He].
    apply reachable_lp, Hr.
  - intros [b objs] [b' objs'] Hr Hr' Eb Ea Eo Et. simpl in *.
    pose proof (reachable_lp _ Hr) as L. pose proof (reachable_lp _ Hr') as L'.
    unfold lp_ok in L, L'. simpl in L, L'. subst objs'.
    unfold get_mid_price, get_order_book. rewrite Eb, Ea. cbn [fst].
    rewrite L, L', Et. reflexivity.
Qed.

Lemma mid_price_spec_witness :
  reachable scen_c1 /\
  (get_mid_price scen_c1 == (price (mkOrder 1 BUY 99 5 LIMIT 1 "a") +
                             price (mkOrder 2 SELL 101 5 LIMIT 2 "b")) / 2)%Q /\
  reachable init_world /\ get_mid_price init_world = 100%Q.
Proof.
  assert (Hr : reachable scen_c1) by (eexists; reflexivity).
  assert (Hi : reachable init_world) by (exists []; reflexivity).
  split; [exact Hr|]. split.
  - apply (proj1 mid_price_spec scen_c1 Hr).
    + vm_compute. left. reflexivity.
    + vm_compute. left. reflexivity.
    + intros o Ho. vm_compute in Ho. destruct Ho as [<-|[]]. apply Qle_refl.
    + intros o Ho. vm_compute in Ho. destruct Ho as [<-|[]]. apply Qle_refl.
  - split; [exact Hi|].
    exact (proj1 (proj2 mid_price_spec) init_world Hi (or_introl eq_refl)).
Defined.

Definition scen_c10 : World := run init_world [Submit 1 BUY 99 5 LIMIT "a"].

(** [C10] The default reference price is 100 and the fallback follows the
    trades.  (1) The fresh engine has mid price 100; (2) in every reachable
    state with no recorded trade and an empty side, the mid price is 100;
    (3) in every reachable state with an empty side, the mid price is the
    last trade price, and (4) that is the price of the most recently
    recorded trade (100 if none); (5) every iteration of [match_orders] and
    (6) every iteration of the market-order loop appends one trade and sets
    the last trade price to its price. *)
Theorem default_mid_price :
  get_mid_price init_world = 100%Q /\
  (forall w, reachable w -> trades w.1 = [] ->
     resting w.2 (bids w.1) = [] \/ resting w.2 (asks w.1) = [] -> get_mid_price w = 100%Q) /\
  (forall w, reachable w ->
     resting w.2 (bids w.1) = [] \/ resting w.2 (asks w.1) = [] ->
     get_mid_price w = last_trade_price w.1) /\
  (forall w, reachable w -> last_trade_price w.1 = List.last (map trade_price (trades w.1)) 100%Q) /\
  (forall now w w', match_step now w = Some w' ->
     exists t, trades w'.1 = trades w.1 ++ [t] /\ last_trade_price w'.1 = trade_price t) /\
  (forall now sd r w w', market_step now sd r w = Some w' ->
     exists t, trades w'.1 = trades w.1 ++ [t] /\ last_trade_price w'.1 = trade_price t).
Proof.
  split; [reflexivity|]. split; [|split; [|split; [|split]]].
  - intros w Hr Ht He. rewrite mid_one_side_empty; [|apply (reachable_inv w Hr)|exact He].
    rewrite (reachable_lp w Hr). now rewrite Ht.
  - intros w Hr He. apply mid_one_side_empty; [apply (reachable_inv w Hr)|exact He].
  - exact reachable_lp.
  - exact match_step_trade.
  - exact market_step_trade.
Qed.

Lemma default_mid_price_witness :
  reachable scen_c10 /\ resting scen_c10.2 (bids scen_c10.1) <> [] /\
  get_mid_price scen_c10 = 100%Q.
Proof.
  assert (Hr : reachable scen_c10) by (eexists; reflexivity).
  split; [exact Hr|]. split; [vm_compute; discriminate|].
  exact (proj1 (proj2 default_mid_price) scen_c10 Hr ltac:(reflexivity)
           ltac:(right; vm_compute; reflexivity)).
Defined.

(** * Quantity conservation *)

(** Remaining quantity of the order at one reference, if it is on side [sd]. *)
Definition side_qty (sd : Side) (oo : option Order) : Z :=
  match oo with
  | Some o => if side_eqb (side o) sd then quantity o else 0
  | None => 0
  end.

(** Total remaining quantity of the orders of side [sd] with id below [n]. *)
Fixpoint side_total (sd : Side) (objs : Heap) (n : nat) : Z :=
  match n with
  | O => 0
  | S k => side_total sd objs k + side_qty sd (objs !! k)
  end.

Fixpoint trade_volume (ts : list Trade) : Z :=
  match ts with
  | [] => 0
  | t :: r => trade_quantity t + trade_volume r
  end.

(** Total quantity submitted on side [sd]. *)
Fixpoint submitted (sd : Side) (ops : list Op) : Z :=
  match ops with
  | [] => 0
  | Submit _ s _ q _ _ :: r => (if side_eqb s sd then q else 0) + submitted sd r
  | Cancel _ :: r => submitted sd r
  end.

Lemma trade_volume_app (l1 l2 : list Trade) :
  trade_volume (l1 ++ l2) = (trade_volume l1 + trade_volume l2)%Z.
Proof. induction l1 as [|t r IH]; simpl; [reflexivity|]. rewrite IH. lia. Qed.

Lemma side_total_ext (sd : Side) (objs objs' : Heap) (n : nat) :
  (forall k, (k < n)%nat -> objs' !! k = objs !! k) ->
  side_total sd objs' n = side_total sd objs n.
Proof.
  induction n as [|k IH]; intros H; simpl; [reflexivity|].
  rewrite IH by (intros j Hj; apply H; lia). rewrite H by lia. reflexivity.
Qed.

Lemma side_total_dec (sd : Side) (objs : Heap) (n : nat) (r : Ref) (d : Z) (o : Order) :
  (r < n)%nat -> objs !! r = Some o ->
  side_total sd (dec_quantity r d objs) n =
  (side_total sd objs n - (if side_eqb (side o) sd then d else 0))%Z.
Proof.
  induction n as [|k IH]; intros Hr Ho; [lia|]. simpl.
  destruct (Nat.eq_dec r k) as [<-|Hne].
  - rewrite side_total_ext with (objs := objs)
      by (intros j Hj; apply lookup_dec_ne; lia).
    unfold dec_quantity at 1. rewrite lookup_alter_eq, Ho. simpl.
    destruct (side_eqb (side o) sd); lia.
  - rewrite IH by (lia || exact Ho). rewrite lookup_dec_ne by exact Hne. lia.
Qed.

Lemma side_eqb_opp (sd s1 s2 : Side) :
  s1 <> s2 -> ((if side_eqb s1 sd then 1 else 0) + (if side_eqb s2 sd then 1 else 0) = 1)%Z.
Proof. destruct sd, s1, s2; simpl; intros H; try reflexivity; now contradiction H. Qed.

(** Decrementing two orders of opposite sides by the same quantity lowers
    the remaining total of each side by that quantity. *)
Lemma side_total_dec2 (sd : Side) (objs : Heap) (n : nat) (r1 r2 : Ref) (d : Z) (o1 o2 : Order) :
  r1 <> r2 -> (r1 < n)%nat -> (r2 < n)%nat -> objs !! r1 = Some o1 -> objs !! r2 = Some o2 ->
  side o1 <> side o2 ->
  side_total sd (dec_quantity r2 d (dec_quantity r1 d objs)) n = (side_total sd objs n - d)%Z.
Proof.
  intros Hne H1 H2 Ho1 Ho2 Hs.
  rewrite (side_total_dec sd _ n r2 d o2) by (rewrite ?lookup_dec_ne; auto).
  rewrite (side_total_dec sd _ n r1 d o1) by auto.
  pose proof (side_eqb_opp sd _ _ Hs) as E.
  destruct (side_eqb (side o1) sd), (side_eqb (side o2) sd); lia.
Qed.

Lemma side_total_insert_fresh (sd : Side) (objs : Heap) (n : nat) (o : Order) :
  (forall r o', objs !! r = Some o' -> (r < n)%nat) ->
  side_total sd (<[n := o]> objs) (S n) = (side_total sd objs n + side_qty sd (Some o))%Z.
Proof.
  intros Hf. simpl. rewrite lookup_insert_eq.
  rewrite side_total_ext with (objs := objs) by (intros k Hk; apply lookup_insert_ne; lia).
  reflexivity.
Qed.

(** Remaining quantity of side [sd] plus the traded volume. *)
Definition cq (sd : Side) (w : World) : Z :=
  (side_total sd w.2 (next_order_id w.1) + trade_volume (trades w.1))%Z.

Lemma cq_match_step (sd : Side) (now : Z) (w w' : World) :
  wf w -> match_step now w = Some w' -> cq sd w' = cq sd w.
Proof.
  intros Hw H.
  destruct (match_step_full now w w' H)
    as (eb & rb & ea & ra & ob & oa & Eb & Ea & Hob & Hoa & _ & Hobj & Ht & _).
  pose proof (match_step_shape _ _ _ H) as (_ & _ & Hn & _).
  pose proof (wf_bids _ Hw) as HB. pose proof (wf_asks _ Hw) as HA.
  rewrite Eb in HB. rewrite Ea in HA.
  pose proof (entry_ok_side _ _ _ _ (entry_ok_head _ _ _ _ HB) Hob) as Sb.
  pose proof (entry_ok_side _ _ _ _ (entry_ok_head _ _ _ _ HA) Hoa) as Sa.
  pose proof (wf_fresh _ Hw) as Hf.
  unfold cq. rewrite Hobj, Hn, Ht, trade_volume_app.
  rewrite (side_total_dec2 sd w.2 _ (eref eb) (eref ea) _ ob oa);
    [simpl; lia|intros E; rewrite E in Hob; congruence|eauto|eauto|exact Hob|exact Hoa|congruence].
Qed.

Lemma cq_match_loop (sd : Side) (fuel : nat) (now : Z) (w : World) :
  wf w -> cq sd (match_loop fuel now w) = cq sd w.
Proof.
  revert w. induction fuel as [|f IH]; intros w Hw; simpl; [reflexivity|].
  destruct (match_step now w) as [w'|] eqn:E; [|reflexivity].
  rewrite IH by (eapply wf_match_step; eauto). eapply cq_match_step; eauto.
Qed.

(** The market order at [r] is alive and on side [s]. *)
Definition mkt_side (s : Side) (r : Ref) (w : World) : Prop :=
  exists m, w.2 !! r = Some m /\ side m = s.

Lemma mkt_side_static (s : Side) (r : Ref) (w w' : World) :
  same_static w.2 w'.2 -> mkt_side s r w -> mkt_side s r w'.
Proof.
  intros Hs (m & Hm & Hsm). specialize (Hs r). rewrite Hm in Hs.
  destruct (w'.2 !! r) as [m'|] eqn:Hm'; [|discriminate].
  simpl in Hs. injection Hs. unfold order_static. intros. exists m'. split; [exact Hm'|congruence].
Qed.

Lemma cq_market_step (sd : Side) (now : Z) (s : Side) (r : Ref) (w w' : World) :
  wf w -> mkt_side s r w -> market_step now s r w = Some w' -> cq sd w' = cq sd w.
Proof.
  intros Hw (m0 & Hm0 & Hs0) H.
  destruct (market_step_full now s r w w' H) as (m & e & q & o & Hm & Eq & Ho & _ & Hobj & Ht & _).
  rewrite Hm in Hm0. injection Hm0 as <-.
  pose proof (market_step_shape _ _ _ _ _ H) as (_ & _ & Hn & _).
  pose proof (wf_opp s w Hw) as HO. rewrite Eq in HO.
  pose proof (entry_ok_side _ _ _ _ (entry_ok_head _ _ _ _ HO) Ho) as So.
  pose proof (wf_fresh _ Hw) as Hf.
  unfold cq. rewrite Hobj, Hn, Ht, trade_volume_app.
  rewrite (side_total_dec2 sd w.2 _ (eref e) r _ o m);
    [simpl; lia| |eauto|eauto|exact Ho|exact Hm|].
  - intros E. rewrite E, Hm in Ho. injection Ho as <-. destruct s; simpl in So; congruence.
  - rewrite So, Hs0. destruct s; discriminate.
Qed.

Lemma cq_market_loop (sd : Side) (fuel : nat) (now : Z) (s : Side) (r : Ref) (w : World) :
  wf w -> mkt_side s r w -> cq sd (market_loop fuel now s r w) = cq sd w.
Proof.
  revert w. induction fuel as [|f IH]; intros w Hw Hm; simpl; [reflexivity|].
  destruct (market_step now s r w) as [w'|] eqn:E; [|reflexivity].
  pose proof (market_step_shape _ _ _ _ _ E) as (_ & _ & _ & _ & Hs).
  rewrite IH; [eapply cq_market_step; eauto|eauto using wf_market_step|].
  exact (mkt_side_static _ _ _ _ Hs Hm).
Qed.

Lemma cq_add_order_api (sd : Side) (now : Z) (s : Side) (pr : Q) (q : Z) (ot : OrderType)
    (p : string) (w : World) :
  wf w -> cq sd (add_order_api now s pr q ot p w).2 = (cq sd w + (if side_eqb s sd then q else 0))%Z.
Proof.
  intros Hw. destruct w as [b objs].
  set (n := next_order_id b). set (o := mkOrder n s pr q ot now p).
  pose proof (wf_alloc b objs o Hw) as Hw1. pose proof (wf_fresh _ Hw) as Hf. simpl in Hf.
  set (w1 := (set_next_order_id b (S n), <[n := o]> objs)).
  assert (C1 : cq sd w1 = (cq sd (b, objs) + (if side_eqb s sd then q else 0))%Z).
  { unfold cq, w1. cbn [fst snd]. unfold set_next_order_id. cbn [next_order_id trades].
    rewrite side_total_insert_fresh by exact Hf. unfold n, o. cbn [side_qty side quantity]. lia. }
  destruct ot.
  - rewrite add_order_api_market. cbv zeta. fold n o w1.
    destruct (opp_queue s b) as [|e l]; [exact C1|]. cbn [snd].
    rewrite cq_market_loop; [exact C1|exact Hw1|].
    eexists. split; [apply lookup_insert_eq|reflexivity].
  - rewrite add_order_api_world. unfold add_order. cbn [fst snd]. fold n o.
    rewrite lookup_insert_eq. unfold o at 1. cbn [order_type side price timestamp order_id].
    destruct s; cbn [snd]; unfold match_orders; rewrite cq_match_loop; try exact C1.
    + apply wf_set_order_map, wf_push_bid; [exact Hw1|].
      eexists. split; [apply lookup_insert_eq|]. simpl. repeat split.
    + apply wf_set_order_map, wf_push_ask; [exact Hw1|].
      eexists. split; [apply lookup_insert_eq|]. simpl. repeat split.
Qed.

Lemma cq_cancel (sd : Side) (oid : nat) (w : World) : cq sd (cancel_order oid w).2 = cq sd w.
Proof.
  destruct w as [b objs]. unfold cancel_order. simpl.
  destruct (order_map b !! oid) as [r|]; [|reflexivity].
  destruct (objs !! r) as [o|]; [destruct (side o)|]; reflexivity.
Qed.

Lemma cq_run (sd : Side) (ops : list Op) (w : World) :
  inv w -> cq sd (run w ops) = (cq sd w + submitted sd ops)%Z.
Proof.
  revert w. induction ops as [|op r IH]; intros w Hw; simpl; [lia|].
  rewrite IH by now apply inv_step.
  destruct op; simpl.
  - rewrite cq_add_order_api by apply Hw. lia.
  - rewrite cq_cancel. lia.
Qed.

Lemma cq_init (sd : Side) : cq sd init_world = 0%Z.
Proof. reflexivity. Qed.

(** [C9] Quantity conservation.  (1) One iteration of [match_orders]
    subtracts the quantity of the appended trade from the best bid and from
    the best ask (two distinct orders) and changes no other order; (2) one
    iteration of the market-order loop subtracts the quantity of the
    appended trade from the market order and from the best resting order of
    the opposite side (two distinct orders) and changes no other order;
    (3) after any sequence of operations from the empty book, for each side,
    the quantity filled on that side (submitted minus remaining, over all
    orders of the side) equals the total quantity of the trade log. *)
Theorem quantity_conservation :
  (forall now w w', wf w -> match_step now w = Some w' ->
     exists eb rb ea ra t,
       bids w.1 = eb :: rb /\ asks w.1 = ea :: ra /\ eref eb <> eref ea /\
       trades w'.1 = trades w.1 ++ [t] /\
       qty_of w'.2 (eref eb) = (qty_of w.2 (eref eb) - trade_quantity t)%Z /\
       qty_of w'.2 (eref ea) = (qty_of w.2 (eref ea) - trade_quantity t)%Z /\
       (forall j, j <> eref eb -> j <> eref ea -> w'.2 !! j = w.2 !! j)) /\
  (forall now sd r w w', wf w -> mkt_side sd r w -> market_step now sd r w = Some w' ->
     exists e q t,
       opp_queue sd w.1 = e :: q /\ eref e <> r /\
       trades w'.1 = trades w.1 ++ [t] /\
       qty_of w'.2 r = (qty_of w.2 r - trade_quantity t)%Z /\
       qty_of w'.2 (eref e) = (qty_of w.2 (eref e) - trade_quantity t)%Z /\
       (forall j, j <> r -> j <> eref e -> w'.2 !! j = w.2 !! j)) /\
  (forall sd ops,
     (submitted sd ops - side_total sd (run init_world ops).2 (next_order_id (run init_world ops).1))%Z =
     trade_volume (trades (run init_world ops).1)).
Proof.
  split; [|split].
  - intros now w w' Hw H.
    destruct (match_step_full now w w' H)
      as (eb & rb & ea & ra & ob & oa & Eb & Ea & Hob & Hoa & _ & Hobj & Ht & _).
    pose proof (wf_bids _ Hw) as HB. pose proof (wf_asks _ Hw) as HA.
    rewrite Eb in HB. rewrite Ea in HA.
    pose proof (entry_ok_side _ _ _ _ (entry_ok_head _ _ _ _ HB) Hob) as Sb.
    pose proof (entry_ok_side _ _ _ _ (entry_ok_head _ _ _ _ HA) Hoa) as Sa.
    assert (Hne : eref eb <> eref ea) by (intros E; rewrite E in Hob; congruence).
    do 5 eexists. split; [exact Eb|]. split; [exact Ea|]. split; [exact Hne|].
    split; [exact Ht|]. cbn [trade_quantity]. rewrite Hobj.
    split; [|split].
    + rewrite qty_of_dec_ne by congruence. rewrite (qty_of_dec_eq _ _ _ ob Hob).
      unfold qty_of. now rewrite Hob.
    + rewrite (qty_of_dec_eq _ _ _ oa) by (rewrite lookup_dec_ne by congruence; exact Hoa).
      unfold qty_of. now rewrite Hoa.
    + intros j H1 H2. now apply lookup_dec_dec_ne.
  - intros now sd r w w' Hw (m0 & Hm0 & Hs0) H.
    destruct (market_step_full now sd r w w' H) as (m & e & q & o & Hm & Eq & Ho & _ & Hobj & Ht & _).
    rewrite Hm in Hm0. injection Hm0 as <-.
    pose proof (wf_opp sd w Hw) as HO. rewrite Eq in HO.
    pose proof (entry_ok_side _ _ _ _ (entry_ok_head _ _ _ _ HO) Ho) as So.
    assert (Hne : eref e <> r)
      by (intros E; rewrite E, Hm in Ho; injection Ho as <-; destruct sd; simpl in So; congruence).
    do 3 eexists. split; [exact Eq|]. split; [exact Hne|].
    split; [exact Ht|]. cbn [trade_quantity]. rewrite Hobj.
    split; [|split].
    + rewrite (qty_of_dec_eq _ _ _ m) by (rewrite lookup_dec_ne by congruence; exact Hm).
      unfold qty_of. now rewrite Hm.
    + rewrite qty_of_dec_ne by congruence. rewrite (qty_of_dec_eq _ _ _ o Ho).
      unfold qty_of. now rewrite Ho.
    + intros j H1 H2. now apply lookup_dec_dec_ne.
  - intros sd ops. pose proof (cq_run sd ops init_world inv_init) as C.
    rewrite cq_init in C. unfold cq in C. lia.
Qed.

Lemma quantity_conservation_witness :
  wf crossed_c2 /\
  exists w', match_step 3 crossed_c2 = Some w' /\
  exists t, trades w'.1 = trades crossed_c2.1 ++ [t] /\
    qty_of w'.2 1 = (qty_of crossed_c2.2 1 - trade_quantity t)%Z /\
    qty_of w'.2 2 = (qty_of crossed_c2.2 2 - trade_quantity t)%Z.
Proof.
  split; [exact crossed_c2_wf|].
  destruct (match_step 3 crossed_c2) as [w'|] eqn:E; [|vm_compute in E; discriminate].
  exists w'. split; [reflexivity|].
  destruct (proj1 quantity_conservation 3%Z crossed_c2 w' crossed_c2_wf E)
    as (eb & rb & ea & ra & t & Eb & Ea & _ & Ht & Qb & Qa & _).
  vm_compute in Eb. vm_compute in Ea. injection Eb as <- _. injection Ea as <- _.
  exists t. split; [exact Ht|]. split; [exact Qb|exact Qa].
Defined.

(** * The order index [order_map] *)

(** Every key of the index maps to itself and to a live limit order with
    that id; every entry of either queue is indexed under its own id. *)
Definition idx_ok (w : World) : Prop :=
  (forall k r, order_map w.1 !! k = Some r ->
     r = k /\ exists o, w.2 !! k = Some o /\ order_id o = k /\ order_type o = LIMIT) /\
  (forall e, In e (bids w.1) \/ In e (asks w.1) -> order_map w.1 !! eref e = Some (eref e)).

Lemma static_lookup (objs objs' : Heap) (k : Ref) (o : Order) :
  same_static objs objs' -> objs !! k = Some o ->
  exists o', objs' !! k = Some o' /\ order_static o' = order_static o.
Proof.
  intros Hs Ho. specialize (Hs k). rewrite Ho in Hs.
  destruct (objs' !! k) as [o'|] eqn:Ho'; [|discriminate]. simpl in Hs. injection Hs as E.
  exists o'. split; [reflexivity|]. unfold order_static. congruence.
Qed.

Lemma idx_transfer (w w' : World) :
  idx_ok w -> order_map w'.1 = order_map w.1 -> same_static w.2 w'.2 ->
  (forall e, In e (bids w'.1) -> In e (bids w.1)) ->
  (forall e, In e (asks w'.1) -> In e (asks w.1)) -> idx_ok w'.
Proof.
  intros [I1 I2] Em Hs Hb Ha. split.
  - intros k r Hk. rewrite Em in Hk. destruct (I1 k r Hk) as (-> & o & Ho & Hid & Ht).
    destruct (static_lookup _ _ _ _ Hs Ho) as (o' & Ho' & Eo).
    unfold order_static in Eo. injection Eo as E1 _ _ E4 _ _.
    split; [reflexivity|]. exists o'. repeat split; congruence.
  - intros e He. rewrite Em. apply I2. destruct He as [He|He]; [left; auto|right; auto].
Qed.

Lemma idx_match_step (now : Z) (w w' : World) :
  idx_ok w -> match_step now w = Some w' -> idx_ok w'.
Proof.
  intros Hi H. apply match_step_shape in H as (Hb & Ha & _ & Hm & Hs).
  apply (idx_transfer w w' Hi Hm Hs); intros e He.
  - destruct Hb as [Hb|Hb]; rewrite Hb in He; auto using heappop_incl.
  - destruct Ha as [Ha|Ha]; rewrite Ha in He; auto using heappop_incl.
Qed.

Lemma idx_match_loop (fuel : nat) (now : Z) (w : World) :
  idx_ok w -> idx_ok (match_loop fuel now w).
Proof.
  revert w. induction fuel as [|f IH]; intros w Hi; simpl; [exact Hi|].
  destruct (match_step now w) as [w'|] eqn:E; [|exact Hi].
  apply IH. eapply idx_match_step; eauto.
Qed.

Lemma idx_market_step (now : Z) (sd : Side) (r : Ref) (w w' : World) :
  idx_ok w -> market_step now sd r w = Some w' -> idx_ok w'.
Proof.
  intros Hi H. apply market_step_shape in H as (Hq & Ho & _ & Hm & Hs).
  apply (idx_transfer w w' Hi Hm Hs); intros e He; destruct sd; simpl in *;
    try (rewrite Ho in He; exact He);
    destruct Hq as [Hq|Hq]; rewrite Hq in He; auto using heappop_incl.
Qed.

Lemma idx_market_loop (fuel : nat) (now : Z) (sd : Side) (r : Ref) (w : World) :
  idx_ok w -> idx_ok (market_loop fuel now sd r w).
Proof.
  revert w. induction fuel as [|f IH]; intros w Hi; simpl; [exact Hi|].
  destruct (market_step now sd r w) as [w'|] eqn:E; [|exact Hi].
  apply IH. eapply idx_market_step; eauto.
Qed.

Lemma idx_alloc (b : OrderBook) (objs : Heap) (o : Order) :
  wf (b, objs) -> idx_ok (b, objs) ->
  idx_ok (set_next_order_id b (S (next_order_id b)), <[next_order_id b := o]> objs).
Proof.
  intros Hw [I1 I2]. pose proof (wf_fresh _ Hw) as Hf. simpl in *. split; [|exact I2].
  intros k r Hk. destruct (I1 k r Hk) as (-> & o' & Ho' & Hrest). cbn [fst snd].
  split; [reflexivity|]. exists o'. split; [|exact Hrest].
  rewrite lookup_insert_ne; [exact Ho'|]. apply Hf in Ho'. lia.
Qed.

(** Pushing the new limit order [r] and indexing it. *)
Lemma idx_push (b : OrderBook) (objs : Heap) (o : Order) (e : Entry) (sd : Side) :
  idx_ok (b, objs) -> objs !! eref e = Some o -> order_id o = eref e -> order_type o = LIMIT ->
  let b1 := match sd with
            | BUY => set_bids b (heappush (bids b) e)
            | SELL => set_asks b (heappush (asks b) e)
            end in
  idx_ok (set_order_map b1 (<[eref e := eref e]> (order_map b1)), objs).
Proof.
  intros [I1 I2] Ho Hid Ht b1.
  assert (Hm : order_map b1 = order_map b) by (unfold b1; destruct sd; reflexivity).
  assert (Hq : forall x, In x (bids b1) \/ In x (asks b1) -> x = e \/ In x (bids b) \/ In x (asks b)).
  { intros x Hx. unfold b1 in Hx. destruct sd; simpl in Hx.
    - destruct Hx as [Hx|Hx]; [|auto].
      apply (Permutation_in _ (heappush_perm _ _)) in Hx as [<-|Hx]; auto.
    - destruct Hx as [Hx|Hx]; [auto|].
      apply (Permutation_in _ (heappush_perm _ _)) in Hx as [<-|Hx]; auto. }
  split; simpl; rewrite Hm.
  - intros k r Hk. rewrite lookup_insert_Some in Hk.
    destruct Hk as [[<- <-]|[Hne Hk]]; [split; [reflexivity|]; now exists o|].
    exact (I1 k r Hk).
  - intros x Hx. apply Hq in Hx as [->|Hx]; [apply lookup_insert_eq|].
    rewrite lookup_insert. case_decide as E; [now rewrite E|]. now apply I2.
Qed.

Lemma idx_add_order_api (now : Z) (sd : Side) (pr : Q) (q : Z) (ot : OrderType)
    (p : string) (w : World) :
  wf w -> idx_ok w -> idx_ok (add_order_api now sd pr q ot p w).2.
Proof.
  intros Hw Hi. destruct w as [b objs].
  set (n := next_order_id b). set (o := mkOrder n sd pr q ot now p).
  pose proof (idx_alloc b objs o Hw Hi) as Hi1.
  destruct ot.
  - rewrite add_order_api_market. cbv zeta. fold n o.
    destruct (opp_queue sd b); [exact Hi1|]. apply idx_market_loop, Hi1.
  - rewrite add_order_api_world. unfold add_order. cbn [fst snd]. fold n o.
    rewrite lookup_insert_eq. unfold o at 1. cbn [order_type side price timestamp order_id].
    unfold match_orders. cbn [snd]. apply idx_match_loop.
    destruct sd.
    + exact (idx_push _ _ o ((- pr)%Q, now, n) BUY Hi1 (lookup_insert_eq _ _ _) eq_refl eq_refl).
    + exact (idx_push _ _ o (pr, now, n) SELL Hi1 (lookup_insert_eq _ _ _) eq_refl eq_refl).
Qed.

(** An entry of a queue of side [sd] whose order has id [oid] has reference [oid]. *)
Lemma entry_ok_ref (sd : Side) (objs : Heap) (e : Entry) (o : Order) :
  entry_ok sd objs e -> objs !! eref e = Some o -> order_id o = eref e.
Proof. intros (o' & Ho' & _ & _ & Hid & _) Ho. rewrite Ho in Ho'. congruence. Qed.

(** What [cancel_order] does to an indexed id in a well-formed, indexed state. *)
Lemma cancel_exact (oid : nat) (w : World) (r : Ref) :
  wf w -> idx_ok w -> order_map w.1 !! oid = Some r ->
  (cancel_order oid w).1 = true /\
  order_map (cancel_order oid w).2.1 = delete oid (order_map w.1) /\
  (cancel_order oid w).2.2 = w.2 /\
  trades (cancel_order oid w).2.1 = trades w.1 /\
  last_trade_price (cancel_order oid w).2.1 = last_trade_price w.1 /\
  next_order_id (cancel_order oid w).2.1 = next_order_id w.1 /\
  (forall e, In e (bids (cancel_order oid w).2.1) <-> In e (bids w.1) /\ eref e <> oid) /\
  (forall e, In e (asks (cancel_order oid w).2.1) <-> In e (asks w.1) /\ eref e <> oid).
Proof.
  intros Hw [I1 _] Hr. destruct (I1 oid r Hr) as (-> & o & Ho & Hid & _).
  pose proof (wf_bids _ Hw) as HB. pose proof (wf_asks _ Hw) as HA.
  rewrite List.Forall_forall in HB, HA.
  destruct w as [b objs]. simpl in *. unfold cancel_order. rewrite Hr, Ho.
  assert (K : forall sd e, entry_ok sd objs e -> keep_entry objs oid e = true <-> eref e <> oid).
  { intros sd e He. destruct He as (o' & Ho' & _ & _ & Hid' & _). unfold keep_entry.
    rewrite Ho', negb_true_iff, Nat.eqb_neq, Hid'. reflexivity. }
  assert (D : forall sd e, entry_ok sd objs e -> side o <> sd -> eref e <> oid).
  { intros sd e He Hs E. destruct He as (o' & Ho' & Hs' & _). rewrite E, Ho in Ho'. congruence. }
  destruct (side o) eqn:Hs; simpl;
    (split; [reflexivity|]); (split; [reflexivity|]); (split; [reflexivity|]);
    (split; [reflexivity|]); (split; [reflexivity|]); (split; [reflexivity|]).
  - split; intros e; split.
    + intros He. apply In_heapify_filter in He as [He Hk]. split; [exact He|].
      exact (proj1 (K BUY e (HB e He)) Hk).
    + intros [He Hne]. apply In_heapify_filter. split; [exact He|].
      exact (proj2 (K BUY e (HB e He)) Hne).
    + intros He. split; [exact He|]. apply (D SELL e (HA e He)). congruence.
    + intros [He _]. exact He.
  - split; intros e; split.
    + intros He. split; [exact He|]. apply (D BUY e (HB e He)). congruence.
    + intros [He _]. exact He.
    + intros He. apply In_heapify_filter in He as [He Hk]. split; [exact He|].
      exact (proj1 (K SELL e (HA e He)) Hk).
    + intros [He Hne]. apply In_heapify_filter. split; [exact He|].
      exact (proj2 (K SELL e (HA e He)) Hne).
Qed.

Lemma idx_cancel (oid : nat) (w : World) :
  wf w -> idx_ok w -> idx_ok (cancel_order oid w).2.
Proof.
  intros Hw Hi. destruct (order_map w.1 !! oid) as [r|] eqn:Hr.
  - destruct (cancel_exact oid w r Hw Hi Hr) as (_ & Em & Eo & _ & _ & _ & Eb & Ea).
    destruct Hi as [I1 I2]. split.
    + intros k r' Hk. rewrite Em in Hk. apply lookup_delete_Some in Hk as [Hne Hk].
      rewrite Eo. exact (I1 k r' Hk).
    + intros e He. rewrite Em.
      assert (H : (In e (bids w.1) \/ In e (asks w.1)) /\ eref e <> oid)
        by (destruct He as [He|He]; [apply Eb in He|apply Ea in He]; tauto).
      destruct H as [H Hne]. rewrite lookup_delete_ne by congruence. now apply I2.
  - destruct w as [b objs]. unfold cancel_order. simpl in Hr. rewrite Hr. exact Hi.
Qed.

Lemma idx_init : idx_ok init_world.
Proof. split; simpl; [intros k r H; rewrite lookup_empty in H; discriminate|tauto]. Qed.

Lemma idx_run (ops : list Op) (w : World) : inv w -> idx_ok w -> idx_ok (run w ops).
Proof.
  revert w. induction ops as [|op r IH]; intros w Hw Hi; simpl; [exact Hi|].
  apply IH; [now apply inv_step|]. destruct op; simpl.
  - apply idx_add_order_api; [apply Hw|exact Hi].
  - apply idx_cancel; [apply Hw|exact Hi].
Qed.

Lemma reachable_idx (w : World) : reachable w -> idx_ok w.
Proof. intros [ops ->]. apply idx_run; [apply inv_init|apply idx_init]. Qed.

(** * Further properties of the engine *)

Lemma match_loop_frame (fuel : nat) (now : Z) (w : World) :
  order_map (match_loop fuel now w).1 = order_map w.1 /\
  next_order_id (match_loop fuel now w).1 = next_order_id w.1 /\
  exists l, trades (match_loop fuel now w).1 = trades w.1 ++ l.
Proof.
  revert w. induction fuel as [|f IH]; intros w; simpl; [split; [|split; [|exists []]]; auto using app_nil_r|].
  destruct (match_step now w) as [w'|] eqn:E; [|split; [|split; [|exists []]]; auto using app_nil_r].
  destruct (IH w') as (H1 & H2 & l & H3).
  pose proof (match_step_shape _ _ _ E) as (_ & _ & Hn & Hm & _).
  destruct (match_step_trade _ _ _ E) as (t & Ht & _).
  split; [congruence|]. split; [congruence|]. exists (t :: l). rewrite H3, Ht, <- app_assoc. reflexivity.
Qed.

Lemma market_loop_trades (fuel : nat) (now : Z) (sd : Side) (r : Ref) (w : World) :
  exists l, trades (market_loop fuel now sd r w).1 = trades w.1 ++ l.
Proof.
  revert w. induction fuel as [|f IH]; intros w; simpl; [exists []; now rewrite app_nil_r|].
  destruct (market_step now sd r w) as [w'|] eqn:E; [|exists []; now rewrite app_nil_r].
  destruct (IH w') as (l & H). destruct (market_step_trade _ _ _ _ _ E) as (t & Ht & _).
  exists (t :: l). rewrite H, Ht, <- app_assoc. reflexivity.
Qed.

(** [add_order_api] on a limit order. *)
Lemma add_order_api_limit (now : Z) (sd : Side) (pr : Q) (q : Z) (p : string)
    (b : OrderBook) (objs : Heap) :
  add_order_api now sd pr q LIMIT p (b, objs) =
  let oid := next_order_id b in
  let b1 := set_next_order_id b (S oid) in
  let objs1 := <[oid := mkOrder oid sd pr q LIMIT now p]> objs in
  let b2 := match sd with
            | BUY => set_bids b1 (heappush (bids b1) ((- pr)%Q, now, oid))
            | SELL => set_asks b1 (heappush (asks b1) (pr, now, oid))
            end in
  (true, Some oid, match_orders now (set_order_map b2 (<[oid := oid]> (order_map b2)), objs1)).
Proof.
  unfold add_order_api, add_order. simpl. rewrite lookup_insert_eq. simpl.
  destruct sd; reflexivity.
Qed.

Lemma add_order_api_next (now : Z) (sd : Side) (pr : Q) (q : Z) (ot : OrderType) (p : string)
    (w : World) :
  next_order_id (add_order_api now sd pr q ot p w).2.1 = S (next_order_id w.1).
Proof.
  destruct w as [b objs]. destruct ot.
  - rewrite add_order_api_market. cbv zeta. destruct (opp_queue sd b); [reflexivity|].
    cbn [fst snd]. rewrite (proj1 (proj2 (proj2 (market_loop_frame _ _ _ _ _)))). reflexivity.
  - rewrite add_order_api_limit. cbv zeta. cbn [fst snd]. unfold match_orders.
    rewrite (proj1 (proj2 (match_loop_frame _ _ _))). destruct sd; reflexivity.
Qed.

Lemma add_order_api_trades (now : Z) (sd : Side) (pr : Q) (q : Z) (ot : OrderType) (p : string)
    (w : World) :
  exists l, trades (add_order_api now sd pr q ot p w).2.1 = trades w.1 ++ l.
Proof.
  destruct w as [b objs]. destruct ot.
  - rewrite add_order_api_market. cbv zeta. destruct (opp_queue sd b); [exists []; now rewrite app_nil_r|].
    cbn [snd]. exact (market_loop_trades _ _ _ _ _).
  - rewrite add_order_api_limit. cbv zeta. cbn [snd]. unfold match_orders.
    match goal with |- context [match_loop ?f ?n ?w0] =>
      destruct (match_loop_frame f n w0) as (_ & _ & l & H) end.
    exists l. rewrite H. destruct sd; reflexivity.
Qed.

Lemma cancel_frame (oid : nat) (w : World) :
  (cancel_order oid w).2.2 = w.2 /\
  trades (cancel_order oid w).2.1 = trades w.1 /\
  last_trade_price (cancel_order oid w).2.1 = last_trade_price w.1 /\
  next_order_id (cancel_order oid w).2.1 = next_order_id w.1.
Proof.
  destruct w as [b objs]. unfold cancel_order. simpl.
  destruct (order_map b !! oid) as [r|]; [|auto].
  destruct (objs !! r) as [o|]; [destruct (side o)|]; auto.
Qed.

(** [cancel_order] on any id, in a well-formed and indexed state. *)
Lemma cancel_general (oid : nat) (w : World) :
  wf w -> idx_ok w ->
  order_map (cancel_order oid w).2.1 !! oid = None /\
  (forall k, k <> oid -> order_map (cancel_order oid w).2.1 !! k = order_map w.1 !! k) /\
  (forall e, In e (bids (cancel_order oid w).2.1) <-> In e (bids w.1) /\ eref e <> oid) /\
  (forall e, In e (asks (cancel_order oid w).2.1) <-> In e (asks w.1) /\ eref e <> oid).
Proof.
  intros Hw Hi. destruct (order_map w.1 !! oid) as [r|] eqn:Hr.
  - destruct (cancel_exact oid w r Hw Hi Hr) as (_ & Em & _ & _ & _ & _ & Eb & Ea).
    rewrite Em. split; [apply lookup_delete_eq|]. split; [|auto].
    intros k Hk. now apply lookup_delete_ne.
  - destruct Hi as [_ I2].
    assert (N : forall e, In e (bids w.1) \/ In e (asks w.1) -> eref e <> oid)
      by (intros e He E; apply I2 in He; rewrite E, Hr in He; discriminate).
    destruct w as [b objs]. unfold cancel_order. simpl in *. rewrite Hr. simpl.
    split; [exact Hr|]. split; [reflexivity|].
    split; intros e; split; try tauto; intros He; split; auto.
Qed.

Lemma In_resting_intro (objs : Heap) (q : list Entry) (e : Entry) (o : Order) :
  In e q -> objs !! eref e = Some o -> In o (resting objs q).
Proof.
  induction q as [|x r IH]; simpl; [easy|]. intros [<-|He] Ho.
  - rewrite Ho. now left.
  - destruct (objs !! eref x); [right|]; auto.
Qed.

(** A resting bid and a resting ask of a state satisfying [inv] do not cross. *)
Lemma entries_uncrossed (w : World) (eb ea : Entry) (ob oa : Order) :
  inv w -> In eb (bids w.1) -> In ea (asks w.1) ->
  w.2 !! eref eb = Some ob -> w.2 !! eref ea = Some oa -> (price ob < price oa)%Q.
Proof.
  intros [[HB HA _ _ _] Hn] Heb Hea Hob Hoa.
  pose proof (Hn eb ea Heb Hea) as H.
  rewrite List.Forall_forall in HB, HA.
  rewrite (entry_ok_price _ _ _ _ (HB _ Heb) Hob) in H.
  rewrite (entry_ok_price _ _ _ _ (HA _ Hea) Hoa) in H.
  simpl in H. now rewrite Qopp_involutive in H.
Qed.


Lemma match_step_none_uncrossed (now : Z) (w : World) :
  (forall eb ea ob oa, In eb (bids w.1) -> In ea (asks w.1) ->
     w.2 !! eref eb = Some ob -> w.2 !! eref ea = Some oa -> (price ob < price oa)%Q) ->
  match_step now w = None.
Proof.
  intros H. destruct w as [b objs]. unfold match_step. simpl in H.
  destruct (bids b) as [|eb rb] eqn:Eb; [reflexivity|].
  destruct (asks b) as [|ea ra] eqn:Ea; [reflexivity|].
  destruct (objs !! eref eb) as [ob|] eqn:Hob; [|reflexivity].
  destruct (objs !! eref ea) as [oa|] eqn:Hoa; [|reflexivity].
  destruct (Qle_bool (price oa) (price ob)) eqn:E; [|reflexivity].
  apply Qle_bool_iff in E. exfalso. apply (Qlt_not_le (price ob) (price oa)); [|exact E].
  apply (H eb ea ob oa); auto; now left.
Qed.

Lemma match_loop_none (fuel : nat) (now : Z) (w : World) :
  match_step now w = None -> match_loop fuel now w = w.
Proof. destruct fuel; simpl; [reflexivity|]. intros ->. reflexivity. Qed.

(** ** Trades have positive quantities *)

Definition trades_pos (w : World) : Prop := Forall (fun t => (0 < trade_quantity t)%Z) (trades w.1).

Lemma trades_pos_match_step (now : Z) (w w' : World) :
  pos_inv w -> trades_pos w -> match_step now w = Some w' -> trades_pos w'.
Proof.
  intros [[Pb _] [Pa _]] Ht H.
  destruct (match_step_full now w w' H)
    as (eb & rb & ea & ra & ob & oa & Eb & Ea & Hob & Hoa & _ & _ & Htr & _).
  rewrite Eb in Pb. rewrite Ea in Pa. inversion Pb as [|? ? Qb _]. inversion Pa as [|? ? Qa _].
  unfold qty_of in Qb, Qa. rewrite Hob in Qb. rewrite Hoa in Qa.
  unfold trades_pos. rewrite Htr. apply Forall_app. split; [exact Ht|].
  constructor; [simpl; lia|constructor].
Qed.

Lemma trades_pos_market_step (now : Z) (sd : Side) (r : Ref) (w w' : World) :
  pos_inv w -> trades_pos w -> market_step now sd r w = Some w' -> trades_pos w'.
Proof.
  intros Hp Ht H. apply (pos_inv_opp sd) in Hp as [[Po _] _].
  destruct (market_step_full now sd r w w' H) as (m & e & q & o & Hm & Eq & Ho & Hpos & _ & Htr & _).
  rewrite Eq in Po. inversion Po as [|? ? Qo _]. unfold qty_of in Qo. rewrite Ho in Qo.
  unfold trades_pos. rewrite Htr. apply Forall_app. split; [exact Ht|].
  constructor; [simpl; lia|constructor].
Qed.

Lemma trades_pos_match_loop (fuel : nat) (now : Z) (w : World) :
  wf w -> pos_inv w -> trades_pos w -> trades_pos (match_loop fuel now w).
Proof.
  revert w. induction fuel as [|f IH]; intros w Hw Hp Ht; simpl; [exact Ht|].
  destruct (match_step now w) as [w'|] eqn:E; [|exact Ht].
  apply IH; [eapply wf_match_step; eauto|eapply pos_match_step; eauto|].
  eapply trades_pos_match_step; eauto.
Qed.

Lemma trades_pos_market_loop (fuel : nat) (now : Z) (sd : Side) (r : Ref) (w : World) :
  wf w -> mkt_ok sd r w -> mkt_fresh sd r w -> pos_inv w -> trades_pos w ->
  trades_pos (market_loop fuel now sd r w).
Proof.
  revert w. induction fuel as [|f IH]; intros w Hw Hm Hfr Hp Ht; simpl; [exact Ht|].
  destruct (market_step now sd r w) as [w'|] eqn:E; [|exact Ht].
  pose proof (market_step_progress _ _ _ _ _ Hw Hm E) as [Hm' _].
  pose proof (pos_market_step _ _ _ _ _ Hw Hm Hfr Hp E) as Hp'.
  pose proof (market_step_shape _ _ _ _ _ E) as (_ & Ho & _).
  apply IH; [eapply wf_market_step; eauto|exact Hm'| |exact Hp'|].
  - intros x Hx. apply Hfr. unfold other in *. now rewrite <- Ho.
  - exact (trades_pos_market_step now sd r w w' Hp Ht E).
Qed.

Lemma trades_pos_add_order_api (now : Z) (sd : Side) (pr : Q) (q : Z) (ot : OrderType)
    (p : string) (w : World) :
  wf w -> pos_inv w -> trades_pos w -> (0 < q)%Z -> trades_pos (add_order_api now sd pr q ot p w).2.
Proof.
  intros Hw Hp Ht Hq. destruct w as [b objs].
  set (n := next_order_id b). set (o := mkOrder n sd pr q ot now p).
  pose proof (wf_alloc b objs o Hw) as Hw1. pose proof (pos_alloc b objs o Hw Hp) as Hp1.
  pose proof (wf_fresh _ Hw) as Hf. simpl in Hf.
  destruct ot.
  - rewrite add_order_api_market. cbv zeta. fold n.
    destruct (opp_queue sd b) as [|e l] eqn:Eq; [exact Ht|]. cbn [snd].
    apply trades_pos_market_loop; [exact Hw1| | |exact Hp1|exact Ht].
    + eexists. split; [apply lookup_insert_eq|]. simpl. split; [reflexivity|lia].
    + intros x Hx. simpl in Hx. rewrite opp_queue_set_next in Hx.
      assert (HQ : Forall (entry_ok (other (other sd)) objs) (opp_queue (other sd) b))
        by (destruct Hw as [HB HA _ _ _]; destruct sd; assumption).
      pose proof (queue_refs_lt _ _ _ _ HQ Hf x Hx). fold n in H. lia.
  - rewrite add_order_api_world. unfold add_order. cbn [fst snd].
    rewrite lookup_insert_eq. cbn [order_type side price timestamp order_id].
    destruct Hp1 as [Pb Pa]. simpl in Pb, Pa.
    destruct Hw as [HB HA _ _ _]. simpl in HB, HA.
    assert (Hq1 : (0 < qty_of (<[n := o]> objs) n)%Z)
      by (unfold qty_of; rewrite lookup_insert_eq; exact Hq).
    destruct sd; cbn [snd]; unfold match_orders; apply trades_pos_match_loop; try exact Ht.
    + apply wf_set_order_map, wf_push_bid; [exact Hw1|].
      eexists. split; [apply lookup_insert_eq|]. simpl. repeat split.
    + split; simpl; [|exact Pa]. apply queue_pos_push; [exact Pb|exact Hq1|].
      intros x Hx. pose proof (queue_refs_lt _ _ _ _ HB Hf x Hx). simpl. unfold n. lia.
    + apply wf_set_order_map, wf_push_ask; [exact Hw1|].
      eexists. split; [apply lookup_insert_eq|]. simpl. repeat split.
    + split; simpl; [exact Pb|]. apply queue_pos_push; [exact Pa|exact Hq1|].
      intros x Hx. pose proof (queue_refs_lt _ _ _ _ HA Hf x Hx). simpl. unfold n. lia.
Qed.

Lemma trades_pos_run (ops : list Op) (w : World) :
  Forall pos_op ops -> inv w -> pos_inv w -> trades_pos w -> trades_pos (run w ops).
Proof.
  revert w. induction ops as [|op r IH]; intros w Hops Hi Hp Ht; simpl; [exact Ht|].
  inversion Hops as [|? ? Hop Hr]; subst. apply IH; [exact Hr|now apply inv_step| |].
  - destruct op; simpl in *; [now apply pos_add_order_api; [apply Hi| |]|now apply pos_cancel].
  - destruct op; simpl in *.
    + now apply trades_pos_add_order_api; [apply Hi| | |].
    + unfold trades_pos. now rewrite (proj1 (proj2 (cancel_frame _ _))).
Qed.

Lemma cancel_unindexed (oid : nat) (w : World) :
  order_map w.1 !! oid = None -> cancel_order oid w = (false, w).
Proof. destruct w as [b objs]. unfold cancel_order. simpl. now intros ->. Qed.

Lemma queue_ref_fresh (w : World) (e : Entry) :
  wf w -> In e (bids w.1) \/ In e (asks w.1) -> (eref e < next_order_id w.1)%nat.
Proof.
  intros Hw He. pose proof (wf_fresh _ Hw) as Hf.
  destruct Hw as [HB HA _ _ _]. rewrite List.Forall_forall in HB, HA.
  destruct He as [He|He]; [apply HB in He|apply HA in He];
    destruct He as (o & Ho & _); exact (Hf _ _ Ho).
Qed.

Lemma cancel_all_general (ids : list nat) (w : World) :
  inv w -> idx_ok w ->
  (forall oid, In oid ids -> order_map (cancel_all_orders ids w).1 !! oid = None) /\
  (forall k, ~ In k ids -> order_map (cancel_all_orders ids w).1 !! k = order_map w.1 !! k) /\
  (forall e, In e (bids (cancel_all_orders ids w).1) <-> In e (bids w.1) /\ ~ In (eref e) ids) /\
  (forall e, In e (asks (cancel_all_orders ids w).1) <-> In e (asks w.1) /\ ~ In (eref e) ids) /\
  trades (cancel_all_orders ids w).1 = trades w.1 /\
  (cancel_all_orders ids w).2 = w.2.
Proof.
  unfold cancel_all_orders. revert w.
  induction ids as [|i r IH]; intros w Hi Hx; simpl.
  - repeat split; try tauto.
  - set (w1 := (cancel_order i w).2).
    destruct (cancel_general i w (proj1 Hi) Hx) as (G1 & G2 & G3 & G4).
    destruct (cancel_frame i w) as (F1 & F2 & _).
    destruct (IH w1 (cancel_inv i w Hi) (idx_cancel i w (proj1 Hi) Hx))
      as (H1 & H2 & H3 & H4 & H5 & H6).
    split; [|split; [|split; [|split; [|split]]]].
    + intros oid [<-|Ho]; [|now apply H1].
      destruct (in_dec Nat.eq_dec i r) as [Hr|Hr]; [now apply H1|].
      rewrite (H2 _ Hr). exact G1.
    + intros k Hk. rewrite H2 by tauto. apply G2. intros ->. apply Hk. now left.
    + intros e. rewrite H3. unfold w1. rewrite G3. intuition congruence.
    + intros e. rewrite H4. unfold w1. rewrite G4. intuition congruence.
    + rewrite H5. exact F2.
    + rewrite H6. exact F1.
Qed.

(** * Further properties of the engine *)

(** X1: cancelling an id that is in [order_map] of a reachable book returns
    [True], removes that id (and no other) from [order_map], removes exactly
    the queue entries of that order, leaves the order objects and the trade
    log alone; cancelling the same id again returns [False] and changes nothing. *)
Theorem cancel_order_removes_once (oid : nat) (r : Ref) (w : World) :
  reachable w -> order_map w.1 !! oid = Some r ->
  let '(ok, w') := cancel_order oid w in
  ok = true /\
  order_map w'.1 !! oid = None /\
  (forall k, k <> oid -> order_map w'.1 !! k = order_map w.1 !! k) /\
  (forall e, In e (bids w'.1) <-> In e (bids w.1) /\ eref e <> oid) /\
  (forall e, In e (asks w'.1) <-> In e (asks w.1) /\ eref e <> oid) /\
  w'.2 = w.2 /\ trades w'.1 = trades w.1 /\
  cancel_order oid w' = (false, w').
Proof.
  intros Hr Hm. pose proof (reachable_inv w Hr) as [Hw _]. pose proof (reachable_idx w Hr) as Hx.
  destruct (cancel_exact oid w r Hw Hx Hm) as (E1 & _ & E3 & E4 & _).
  destruct (cancel_general oid w Hw Hx) as (G1 & G2 & G3 & G4).
  destruct (cancel_order oid w) as [ok w'] eqn:Ec. simpl in *.
  repeat (split; [assumption|]). now apply cancel_unindexed.
Qed.

Lemma cancel_order_removes_once_witness :
  reachable scen_c1 /\ order_map scen_c1.1 !! 1%nat = Some 1%nat /\
  let '(ok, w') := cancel_order 1 scen_c1 in
  ok = true /\
  order_map w'.1 !! 1%nat = None /\
  (forall k, k <> 1%nat -> order_map w'.1 !! k = order_map scen_c1.1 !! k) /\
  (forall e, In e (bids w'.1) <-> In e (bids scen_c1.1) /\ eref e <> 1%nat) /\
  (forall e, In e (asks w'.1) <-> In e (asks scen_c1.1) /\ eref e <> 1%nat) /\
  w'.2 = scen_c1.2 /\ trades w'.1 = trades scen_c1.1 /\
  cancel_order 1 w' = (false, w').
Proof.
  assert (R : reachable scen_c1) by (eexists; reflexivity).
  split; [exact R|]. split; [vm_compute; reflexivity|].
  apply (cancel_order_removes_once 1 1 scen_c1 R). vm_compute. reflexivity.
Defined.

(** X2: in a reachable book every key of [order_map] maps to itself and to a
    LIMIT order object with that id, and every order resting in [bids] or
    [asks] is in [order_map] under its own id. *)
Theorem order_map_indexes_resting (w : World) :
  reachable w ->
  (forall k r, order_map w.1 !! k = Some r ->
     r = k /\ exists o, w.2 !! k = Some o /\ order_id o = k /\ order_type o = LIMIT) /\
  (forall o, In o (resting w.2 (bids w.1)) \/ In o (resting w.2 (asks w.1)) ->
     order_map w.1 !! order_id o = Some (order_id o)).
Proof.
  intros Hr. pose proof (reachable_inv w Hr) as [[HB HA _ _ _] _].
  destruct (reachable_idx w Hr) as [I1 I2]. split; [exact I1|].
  rewrite List.Forall_forall in HB, HA.
  intros o [Ho|Ho]; apply In_resting in Ho as (e & He & Hoe).
  - rewrite (entry_ok_ref BUY _ e o (HB e He) Hoe). apply I2. now left.
  - rewrite (entry_ok_ref SELL _ e o (HA e He) Hoe). apply I2. now right.
Qed.

Lemma order_map_indexes_resting_witness :
  reachable scen_c1 /\
  (forall k r, order_map scen_c1.1 !! k = Some r ->
     r = k /\ exists o, scen_c1.2 !! k = Some o /\ order_id o = k /\ order_type o = LIMIT) /\
  (forall o, In o (resting scen_c1.2 (bids scen_c1.1)) \/ In o (resting scen_c1.2 (asks scen_c1.1)) ->
     order_map scen_c1.1 !! order_id o = Some (order_id o)).
Proof.
  assert (R : reachable scen_c1) by (eexists; reflexivity).
  split; [exact R|]. exact (order_map_indexes_resting scen_c1 R).
Defined.

(** X3: a LIMIT submission is always accepted with the id [next_order_id],
    which is then a key of [order_map] (mapping to itself) whatever the
    matching did, so [self.order_map[bid_id]] in [place_quotes] and
    [order_book.order_map[order_id]] in [RandomTrader.act] find it; the other
    keys are unchanged and the counter moves on by one. *)
Theorem limit_order_accepted_and_indexed (now : Z) (sd : Side) (pr : Q) (q : Z) (p : string)
    (w : World) :
  let '(ok, id, w') := add_order_api now sd pr q LIMIT p w in
  ok = true /\ id = Some (next_order_id w.1) /\
  order_map w'.1 !! next_order_id w.1 = Some (next_order_id w.1) /\
  (forall k, k <> next_order_id w.1 -> order_map w'.1 !! k = order_map w.1 !! k) /\
  next_order_id w'.1 = S (next_order_id w.1).
Proof.
  pose proof (add_order_api_next now sd pr q LIMIT p w) as Hn.
  destruct w as [b objs]. rewrite add_order_api_limit in *. cbv zeta in *. unfold match_orders.
  match goal with |- context [match_loop ?f ?n ?w0] =>
    destruct (match_loop_frame f n w0) as (Hm & _ & _) end.
  cbn [fst snd] in *. rewrite Hm. cbn [order_map set_order_map].
  assert (Hb : forall k, order_map (match sd with
            | BUY => set_bids (set_next_order_id b (S (next_order_id b)))
                       (heappush (bids (set_next_order_id b (S (next_order_id b))))
                          ((- pr)%Q, now, next_order_id b))
            | SELL => set_asks (set_next_order_id b (S (next_order_id b)))
                        (heappush (asks (set_next_order_id b (S (next_order_id b))))
                           (pr, now, next_order_id b))
            end) !! k = order_map b !! k) by (destruct sd; reflexivity).
  split; [reflexivity|]. split; [reflexivity|]. split; [apply lookup_insert_eq|].
  split; [|exact Hn]. intros k Hk. rewrite lookup_insert_ne by congruence. apply Hb.
Qed.

(** X4: every submission, accepted or not, takes one id: after a sequence of
    operations [next_order_id] has grown by the number of submissions
    (cancellations leave it alone), so from a fresh book it is one more
    than that number. *)
Theorem next_order_id_counts_submissions (ops : list Op) (w : World) :
  next_order_id (run w ops).1 = (next_order_id w.1 + n_submits ops)%nat /\
  next_order_id (run init_world ops).1 = S (n_submits ops).
Proof.
  assert (G : forall w, next_order_id (run w ops).1 = (next_order_id w.1 + n_submits ops)%nat).
  { induction ops as [|op r IH]; intros w0; simpl; [lia|]. rewrite IH.
    destruct op; simpl.
    - rewrite add_order_api_next. lia.
    - rewrite (proj2 (proj2 (proj2 (cancel_frame _ _)))). reflexivity. }
  split; [apply G|]. rewrite G. reflexivity.
Qed.

(** X5: the trade log only grows: after any sequence of operations the old
    trades are still there, in the same order, at the front of [trades]. *)
Theorem trades_append_only (ops : list Op) (w : World) :
  exists l, trades (run w ops).1 = trades w.1 ++ l.
Proof.
  revert w. induction ops as [|op r IH]; intros w; simpl.
  - exists []. now rewrite app_nil_r.
  - destruct (IH (step w op)) as [l Hl]. rewrite Hl.
    destruct op; simpl.
    + destruct (add_order_api_trades now sd pr q ot participant w) as [l0 H0].
      rewrite H0. exists (l0 ++ l). now rewrite app_assoc.
    + exists l. now rewrite (proj1 (proj2 (cancel_frame _ _))).
Qed.

(** X6: if every submitted order has a positive quantity, every trade the
    book records from a fresh start has a positive quantity. *)
Theorem trade_quantities_positive (ops : list Op) :
  Forall pos_op ops ->
  forall t, In t (trades (run init_world ops).1) -> (0 < trade_quantity t)%Z.
Proof.
  intros Hops. apply List.Forall_forall.
  exact (trades_pos_run ops init_world Hops inv_init pos_init (List.Forall_nil _)).
Qed.

Lemma trade_quantities_positive_witness :
  Forall pos_op [Submit 1 BUY 100 10 LIMIT "a"; Submit 2 SELL 99 5 LIMIT "b";
                 Submit 3 SELL 0 7 MARKET "c"] /\
  forall t, In t (trades (run init_world [Submit 1 BUY 100 10 LIMIT "a";
                   Submit 2 SELL 99 5 LIMIT "b"; Submit 3 SELL 0 7 MARKET "c"]).1) ->
    (0 < trade_quantity t)%Z.
Proof.
  assert (H : Forall pos_op [Submit 1 BUY 100 10 LIMIT "a"; Submit 2 SELL 99 5 LIMIT "b";
                 Submit 3 SELL 0 7 MARKET "c"])
    by (repeat constructor; simpl; lia).
  split; [exact H|]. exact (trade_quantities_positive _ H).
Defined.



(** X8: a MARKET order with a quantity of zero or less against a non-empty
    opposite side is reported as accepted with its new id, but the
    [while market_order.quantity > 0] loop never runs: nothing trades, the
    queues, [order_map] and the trade log are unchanged; only the id counter
    moves on. *)
Theorem market_order_nonpositive_quantity (now : Z) (sd : Side) (pr : Q) (q : Z) (p : string)
    (w : World) :
  (q <= 0)%Z -> opp_queue sd w.1 <> [] ->
  add_order_api now sd pr q MARKET p w =
  (true, Some (next_order_id w.1),
   (set_next_order_id w.1 (S (next_order_id w.1)),
    <[next_order_id w.1 := mkOrder (next_order_id w.1) sd pr q MARKET now p]> w.2)).
Proof.
  intros Hq Hne. destruct w as [b objs]. cbn [fst snd] in Hne |- *.
  rewrite add_order_api_market. cbv zeta.
  destruct (opp_queue sd b) as [|e l] eqn:Eq; [contradiction|].
  cbn [market_loop]. unfold market_step. rewrite lookup_insert_eq, opp_queue_set_next, Eq.
  cbn [quantity]. replace (Z.ltb 0 q) with false by (symmetry; apply Z.ltb_ge; lia).
  reflexivity.
Qed.

Lemma market_order_nonpositive_quantity_witness :
  (0 <= 0)%Z /\ opp_queue BUY scen_c1.1 <> [] /\
  add_order_api 5 BUY 0 0 MARKET "c" scen_c1 =
  (true, Some (next_order_id scen_c1.1),
   (set_next_order_id scen_c1.1 (S (next_order_id scen_c1.1)),
    <[next_order_id scen_c1.1 := mkOrder (next_order_id scen_c1.1) BUY 0 0 MARKET 5 "c"]>
      scen_c1.2)).
Proof.
  assert (H : opp_queue BUY scen_c1.1 <> []) by (vm_compute; discriminate).
  split; [lia|]. split; [exact H|].
  apply (market_order_nonpositive_quantity 5 BUY 0 0 "c" scen_c1); [lia|exact H].
Defined.

(** X9: a LIMIT order that does not reach the other side (a BUY below every
    resting ask, a SELL above every resting bid) is pushed on its own side
    and put in [order_map], and [match_orders] does nothing: no trade, no
    other change to the book or to the order objects. *)
Theorem nonmarketable_limit_rests (now : Z) (pr : Q) (q : Z) (p : string) (w : World) :
  reachable w ->
  ((forall oa, In oa (resting w.2 (asks w.1)) -> (pr < price oa)%Q) ->
   add_order_api now BUY pr q LIMIT p w =
   (true, Some (next_order_id w.1),
    (set_order_map
       (set_bids (set_next_order_id w.1 (S (next_order_id w.1)))
          (heappush (bids w.1) ((- pr)%Q, now, next_order_id w.1)))
       (<[next_order_id w.1 := next_order_id w.1]> (order_map w.1)),
     <[next_order_id w.1 := mkOrder (next_order_id w.1) BUY pr q LIMIT now p]> w.2))) /\
  ((forall ob, In ob (resting w.2 (bids w.1)) -> (price ob < pr)%Q) ->
   add_order_api now SELL pr q LIMIT p w =
   (true, Some (next_order_id w.1),
    (set_order_map
       (set_asks (set_next_order_id w.1 (S (next_order_id w.1)))
          (heappush (asks w.1) (pr, now, next_order_id w.1)))
       (<[next_order_id w.1 := next_order_id w.1]> (order_map w.1)),
     <[next_order_id w.1 := mkOrder (next_order_id w.1) SELL pr q LIMIT now p]> w.2))).
Proof.
  intros Hr. pose proof (reachable_inv w Hr) as Hi. pose proof (proj1 Hi) as Hw.
  destruct w as [b objs]. cbn [fst snd] in *.
  split; intros Hnc; rewrite add_order_api_limit; cbv zeta; unfold match_orders;
    (rewrite match_loop_none; [reflexivity|]); apply match_step_none_uncrossed;
    cbn [fst snd set_order_map set_bids set_asks set_next_order_id bids asks];
    intros eb ea ob oa Heb Hea Hob Hoa.
  - apply (Permutation_in _ (heappush_perm _ _)) in Heb.
    pose proof (queue_ref_fresh (b, objs) ea Hw (or_intror Hea)) as Fa. cbn [fst] in Fa.
    rewrite lookup_insert_ne in Hoa by lia.
    destruct Heb as [<-|Heb].
    + cbn [eref snd] in Hob. rewrite lookup_insert_eq in Hob. injection Hob as <-.
      apply Hnc. eapply In_resting_intro; eauto.
    + pose proof (queue_ref_fresh (b, objs) eb Hw (or_introl Heb)) as Fb. cbn [fst] in Fb.
      rewrite lookup_insert_ne in Hob by lia.
      eapply entries_uncrossed; [exact Hi|exact Heb|exact Hea|exact Hob|exact Hoa].
  - apply (Permutation_in _ (heappush_perm _ _)) in Hea.
    pose proof (queue_ref_fresh (b, objs) eb Hw (or_introl Heb)) as Fb. cbn [fst] in Fb.
    rewrite lookup_insert_ne in Hob by lia.
    destruct Hea as [<-|Hea].
    + cbn [eref snd] in Hoa. rewrite lookup_insert_eq in Hoa. injection Hoa as <-.
      apply Hnc. eapply In_resting_intro; eauto.
    + pose proof (queue_ref_fresh (b, objs) ea Hw (or_intror Hea)) as Fa. cbn [fst] in Fa.
      rewrite lookup_insert_ne in Hoa by lia.
      eapply entries_uncrossed; [exact Hi|exact Heb|exact Hea|exact Hob|exact Hoa].
Qed.

Lemma nonmarketable_limit_rests_witness :
  reachable scen_c1 /\
  (forall oa, In oa (resting scen_c1.2 (asks scen_c1.1)) -> (100 < price oa)%Q) /\
  add_order_api 5 BUY 100 3 LIMIT "c" scen_c1 =
   (true, Some (next_order_id scen_c1.1),
    (set_order_map
       (set_bids (set_next_order_id scen_c1.1 (S (next_order_id scen_c1.1)))
          (heappush (bids scen_c1.1) ((- 100)%Q, 5%Z, next_order_id scen_c1.1)))
       (<[next_order_id scen_c1.1 := next_order_id scen_c1.1]> (order_map scen_c1.1)),
     <[next_order_id scen_c1.1 := mkOrder (next_order_id scen_c1.1) BUY 100 3 LIMIT 5 "c"]>
       scen_c1.2)).
Proof.
  assert (R : reachable scen_c1) by (eexists; reflexivity).
  assert (E : resting scen_c1.2 (asks scen_c1.1) = [mkOrder 2 SELL 101 5 LIMIT 2 "b"])
    by (vm_compute; reflexivity).
  assert (H : forall oa, In oa (resting scen_c1.2 (asks scen_c1.1)) -> (100 < price oa)%Q)
    by (rewrite E; intros oa [<-|[]]; reflexivity).
  split; [exact R|]. split; [exact H|].
  exact (proj1 (nonmarketable_limit_rests 5 100 3 "c" scen_c1 R) H).
Defined.

(** X10: [MarketMaker.cancel_all_orders] on a reachable book: afterwards
    none of the cancelled ids is in [order_map], the other keys are
    unchanged, exactly the queue entries of the cancelled orders are gone
    from [bids] and [asks], and the order objects and the trade log are
    untouched. Ids that are no longer in [order_map] are skipped. *)
Theorem cancel_all_orders_spec (ids : list nat) (w : World) :
  reachable w ->
  (forall oid, In oid ids -> order_map (cancel_all_orders ids w).1 !! oid = None) /\
  (forall k, ~ In k ids -> order_map (cancel_all_orders ids w).1 !! k = order_map w.1 !! k) /\
  (forall e, In e (bids (cancel_all_orders ids w).1) <-> In e (bids w.1) /\ ~ In (eref e) ids) /\
  (forall e, In e (asks (cancel_all_orders ids w).1) <-> In e (asks w.1) /\ ~ In (eref e) ids) /\
  trades (cancel_all_orders ids w).1 = trades w.1 /\
  (cancel_all_orders ids w).2 = w.2.
Proof.
  intros Hr. exact (cancel_all_general ids w (reachable_inv w Hr) (reachable_idx w Hr)).
Qed.

Lemma cancel_all_orders_spec_witness :
  reachable scen_c2 /\
  (forall oid, In oid [1%nat; 2%nat; 7%nat] ->
     order_map (cancel_all_orders [1%nat; 2%nat; 7%nat] scen_c2).1 !! oid = None) /\
  (forall k, ~ In k [1%nat; 2%nat; 7%nat] ->
     order_map (cancel_all_orders [1%nat; 2%nat; 7%nat] scen_c2).1 !! k = order_map scen_c2.1 !! k) /\
  (forall e, In e (bids (cancel_all_orders [1%nat; 2%nat; 7%nat] scen_c2).1) <->
     In e (bids scen_c2.1) /\ ~ In (eref e) [1%nat; 2%nat; 7%nat]) /\
  (forall e, In e (asks (cancel_all_orders [1%nat; 2%nat; 7%nat] scen_c2).1) <->
     In e (asks scen_c2.1) /\ ~ In (eref e) [1%nat; 2%nat; 7%nat]) /\
  trades (cancel_all_orders [1%nat; 2%nat; 7%nat] scen_c2).1 = trades scen_c2.1 /\
  (cancel_all_orders [1%nat; 2%nat; 7%nat] scen_c2).2 = scen_c2.2.
Proof.
  assert (R : reachable scen_c2) by (eexists; reflexivity).
  split; [exact R|]. exact (cancel_all_orders_spec _ scen_c2 R).
Defined.

Lemma update_price_history_step (mm : MarketMaker) (m : Q) :
  (Z.of_nat (length (price_history mm)) <= volatility_window mm)%Z ->
  price_history (update_price_history mm m) =
    skipn (S (length (price_history mm)) - Z.to_nat (volatility_window mm))
      (price_history mm ++ [m]) /\
  volatility_window (update_price_history mm m) = volatility_window mm /\
  (Z.of_nat (length (price_history (update_price_history mm m))) <= volatility_window mm)%Z.
Proof.
  intros Hl. unfold update_price_history. rewrite length_app. cbn [length].
  destruct (Z.ltb_spec (volatility_window mm) (Z.of_nat (length (price_history mm) + 1)))
    as [Hlt|Hge]; cbn [price_history volatility_window set_price_history].
  - replace (S (length (price_history mm)) - Z.to_nat (volatility_window mm)) with 1 by lia.
    split; [now destruct (price_history mm ++ [m])|]. split; [reflexivity|].
    destruct (price_history mm) as [|x r]; cbn [app tl length] in *; [lia|].
    rewrite length_app. cbn [length]. lia.
  - replace (S (length (price_history mm)) - Z.to_nat (volatility_window mm)) with 0 by lia.
    split; [reflexivity|]. split; [reflexivity|]. rewrite length_app. cbn [length]. lia.
Qed.

(** X11: [update_price_history] keeps a rolling window: starting from a
    history no longer than [volatility_window], after recording any sequence
    of mid prices the history is exactly the last [volatility_window] of all
    prices seen (all of them while there are fewer). *)
Theorem price_history_last_window (mm : MarketMaker) (mids : list Q) :
  (Z.of_nat (length (price_history mm)) <= volatility_window mm)%Z ->
  price_history (fold_left update_price_history mids mm) =
  skipn (length (price_history mm ++ mids) - Z.to_nat (volatility_window mm))
    (price_history mm ++ mids).
Proof.
  revert mm. induction mids as [|m ms IH]; intros mm Hl; cbn [fold_left].
  - rewrite app_nil_r. replace (length (price_history mm) - Z.to_nat (volatility_window mm))
      with 0 by lia. reflexivity.
  - destruct (update_price_history_step mm m Hl) as (E & Ew & Hl').
    rewrite <- Ew in Hl'. rewrite (IH _ Hl'), E, Ew.
    set (W := Z.to_nat (volatility_window mm)). set (h := price_history mm).
    assert (HW : length h <= W) by (unfold W, h; lia).
    assert (A : skipn (S (length h) - W) (h ++ [m]) ++ ms = skipn (S (length h) - W) (h ++ m :: ms)).
    { replace (h ++ m :: ms) with ((h ++ [m]) ++ ms) by (rewrite <- app_assoc; reflexivity).
      rewrite (skipn_app _ (h ++ [m]) ms), length_app. cbn [length].
      replace (S (length h) - W - (length h + 1)) with 0 by lia. reflexivity. }
    rewrite A, skipn_skipn, length_skipn, !length_app. cbn [length].
    f_equal. lia.
Qed.

Lemma price_history_last_window_witness :
  (Z.of_nat (length (price_history (mkMarketMaker 1 100 3 (1#20) (1#2) 0 []))) <=
     volatility_window (mkMarketMaker 1 100 3 (1#20) (1#2) 0 []))%Z /\
  price_history (fold_left update_price_history [1; 2; 3; 4; 5]%Q
                   (mkMarketMaker 1 100 3 (1#20) (1#2) 0 [])) =
  skipn (length (price_history (mkMarketMaker 1 100 3 (1#20) (1#2) 0 []) ++ [1; 2; 3; 4; 5]%Q)
           - Z.to_nat (volatility_window (mkMarketMaker 1 100 3 (1#20) (1#2) 0 [])))
    (price_history (mkMarketMaker 1 100 3 (1#20) (1#2) 0 []) ++ [1; 2; 3; 4; 5]%Q).
Proof.
  assert (H : (Z.of_nat (length (price_history (mkMarketMaker 1 100 3 (1#20) (1#2) 0 []))) <=
     volatility_window (mkMarketMaker 1 100 3 (1#20) (1#2) 0 []))%Z) by (simpl; lia).
  split; [exact H|]. exact (price_history_last_window _ _ H).
Defined.

(** X12: with non-negative [base_spread], [inventory_risk_factor],
    [volatility_sensitivity] and volatility and a positive [inventory_limit],
    [calculate_spread] returns a spread of at least
    [base_spread + volatility_sensitivity * current_vol]; while the inventory
    is within the limit the inventory part adds at most
    [inventory_risk_factor * base_spread]. *)
Theorem calculate_spread_bounds (mm : MarketMaker) (current_vol : Q) :
  (0 <= base_spread mm)%Q -> (0 <= inventory_risk_factor mm)%Q ->
  (0 <= volatility_sensitivity mm)%Q -> (0 <= current_vol)%Q -> (0 < inventory_limit mm)%Z ->
  exists s, calculate_spread mm current_vol = Some s /\
    (base_spread mm + volatility_sensitivity mm * current_vol <= s)%Q /\
    ((Z.abs (inventory mm) <= inventory_limit mm)%Z ->
     s <= base_spread mm + volatility_sensitivity mm * current_vol
          + inventory_risk_factor mm * base_spread mm)%Q.
Proof.
  intros Hb Hr Hs Hv Hl. unfold calculate_spread.
  replace (Z.eqb (inventory_limit mm) 0) with false by (symmetry; apply Z.eqb_neq; lia).
  eexists. split; [reflexivity|].
  assert (Lq : (0 < inject_Z (inventory_limit mm))%Q) by (unfold Qlt; simpl; lia).
  set (f := (inject_Z (Z.abs (inventory mm)) / inject_Z (inventory_limit mm))%Q).
  assert (F0 : (0 <= f)%Q).
  { apply Qle_shift_div_l; [exact Lq|]. unfold Qle; simpl; lia. }
  assert (C0 : (0 <= f * inventory_risk_factor mm * base_spread mm)%Q)
    by (apply Qmult_le_0_compat; [apply Qmult_le_0_compat|]; assumption).
  set (v := (volatility_sensitivity mm * current_vol)%Q).
  split; [lra|]. intros Hinv.
  assert (F1 : (f <= 1)%Q).
  { apply Qle_shift_div_r; [exact Lq|]. unfold Qle; simpl; lia. }
  assert (C1 : (f * inventory_risk_factor mm * base_spread mm
                <= 1 * inventory_risk_factor mm * base_spread mm)%Q)
    by (apply Qmult_le_compat_r; [apply Qmult_le_compat_r|]; assumption).
  rewrite Qmult_1_l in C1. lra.
Qed.

Lemma calculate_spread_bounds_witness :
  (0 <= base_spread (mkMarketMaker 1 100 10 (1#20) (1#2) (-30) []))%Q /\
  (0 <= inventory_risk_factor (mkMarketMaker 1 100 10 (1#20) (1#2) (-30) []))%Q /\
  (0 <= volatility_sensitivity (mkMarketMaker 1 100 10 (1#20) (1#2) (-30) []))%Q /\
  (0 <= 2)%Q /\ (0 < inventory_limit (mkMarketMaker 1 100 10 (1#20) (1#2) (-30) []))%Z /\
  exists s, calculate_spread (mkMarketMaker 1 100 10 (1#20) (1#2) (-30) []) 2 = Some s /\
    (1 + (1#2) * 2 <= s)%Q /\
    ((Z.abs (-30) <= 100)%Z -> s <= 1 + (1#2) * 2 + (1#20) * 1)%Q.
Proof.
  assert (H1 : (0 <= base_spread (mkMarketMaker 1 100 10 (1#20) (1#2) (-30) []))%Q)
    by (simpl; lra).
  assert (H2 : (0 <= inventory_risk_factor (mkMarketMaker 1 100 10 (1#20) (1#2) (-30) []))%Q)
    by (simpl; lra).
  assert (H3 : (0 <= volatility_sensitivity (mkMarketMaker 1 100 10 (1#20) (1#2) (-30) []))%Q)
    by (simpl; lra).
  assert (H4 : (0 <= 2)%Q) by lra.
  assert (H5 : (0 < inventory_limit (mkMarketMaker 1 100 10 (1#20) (1#2) (-30) []))%Z)
    by (simpl; lia).
  split; [exact H1|]. split; [exact H2|]. split; [exact H3|]. split; [exact H4|].
  split; [exact H5|]. exact (calculate_spread_bounds _ 2 H1 H2 H3 H4 H5).
Defined.



(** X14: the "Recent Trades" table of [app.py] shows at most the ten most
    recent trades, newest first: it has [min 10 (len trades)] rows and its
    row [i] is [trades[len(trades) - 1 - i]]. *)
Theorem recent_trades_newest_first (ts : list Trade) (i : nat) :
  (i < Nat.min 10 (length ts))%nat ->
  length (recent_trades ts) = Nat.min 10 (length ts) /\
  nth_error (recent_trades ts) i = nth_error ts (length ts - S i).
Proof.
  intros Hi. unfold recent_trades. rewrite length_rev, length_skipn. split; [lia|].
  rewrite nth_error_rev, length_skipn.
  replace (Nat.ltb i (length ts - (length ts - 10))) with true by (symmetry; apply Nat.ltb_lt; lia).
  rewrite nth_error_skipn. f_equal. lia.
Qed.

Definition sample_trades : list Trade :=
  map (fun k => mkTrade (Z.of_nat k) (inject_Z (Z.of_nat (100 + k))) 1 BUY) (seq 0 12).

Lemma recent_trades_newest_first_witness :
  (0 < Nat.min 10 (length sample_trades))%nat /\
  length (recent_trades sample_trades) = Nat.min 10 (length sample_trades) /\
  nth_error (recent_trades sample_trades) 0 = nth_error sample_trades (length sample_trades - 1).
Proof.
  assert (H : (0 < Nat.min 10 (length sample_trades))%nat) by (vm_compute; lia).
  split; [exact H|]. exact (recent_trades_newest_first sample_trades 0 H).
Defined.
